(** * Internal-link resolution and reading history of the note site

    A shallow embedding of [src/lib/markdown.ts] (alias index and
    [[internal link]] rewriting), of the string-level rewrite of
    [src/app/[slug]/page.tsx] and of [src/lib/reading-history.ts].

    JavaScript strings are modelled as [string]: a sequence of 8-bit
    characters standing for the code units of the source string.  Case
    conversion is modelled on the letters [A]..[Z], which is all that
    [toLowerCase] changes in ASCII text; a property that depends on the
    letters of a text is stated for ASCII strings ([Js.isAscii]).

    The objects [titleToSlug], [slugToFile] and the accumulator of the
    home page are plain objects created by [{}] and used as
    dictionaries.  Their own properties are a [gmap]; a read that finds
    no own property goes on to [Object.prototype], and an assignment
    under [__proto__] is taken by the setter inherited from there
    ([JsObject]).

    The traversal [visit(tree, 'text', f)] of unist-util-visit is
    modelled by structural recursion over the children of each parent. *)

From Stdlib Require Import Ascii String.
From Equations.Prop Require Import Equations Logic.
From stdpp Require Import gmap strings list fin_maps.

Open Scope string_scope.
Open Scope list_scope.
Open Scope nat_scope.

(** ** String primitives of the source language *)

Module Js.

(** One code unit of [String.prototype.toLowerCase]: the letters
    [A]..[Z] (65..90) move to [a]..[z]; every other unit is left as it
    is.  On ASCII text ([isAscii] below) this is the conversion of the
    source. *)
Definition lowerChar (c : ascii) : ascii :=
  let n := nat_of_ascii c in
  if (65 <=? n) && (n <=? 90) then ascii_of_nat (n + 32) else c.

Fixpoint toLowerCase (s : string) : string :=
  match s with
  | EmptyString => EmptyString
  | String c s' => String (lowerChar c) (toLowerCase s')
  end.

Fixpoint drop (n : nat) (s : string) : string :=
  match n, s with
  | 0, _ => s
  | S _, EmptyString => EmptyString
  | S n', String _ s' => drop n' s'
  end.

Fixpoint take (n : nat) (s : string) : string :=
  match n, s with
  | 0, _ => EmptyString
  | S _, EmptyString => EmptyString
  | S n', String c s' => String c (take n' s')
  end.

(** [s.slice(a, b)] for indices that are natural numbers: both ends
    are clamped to the length, and an end before the start gives the
    empty string. *)
Definition slice (s : string) (a b : nat) : string := take (b - a) (drop a s).

(** [s.slice(a)] *)
Definition sliceFrom (s : string) (a : nat) : string := drop a s.

(** [s.startsWith(p)], returning what follows the prefix. *)
Fixpoint stripPrefix (p s : string) : option string :=
  match p, s with
  | EmptyString, _ => Some s
  | String a p', String b s' => if decide (a = b) then stripPrefix p' s' else None
  | String _ _, EmptyString => None
  end.

(** [s.replace(pat, rep)] with a string pattern: only the first
    occurrence of [pat] is replaced. *)
Fixpoint replace (pat rep s : string) : string :=
  match stripPrefix pat s with
  | Some rest => rep +:+ rest
  | None =>
      match s with
      | EmptyString => EmptyString
      | String c s' => String c (replace pat rep s')
      end
  end.

(** [s.split(sep)] for a one-character separator. *)
Fixpoint split (sep : ascii) (s : string) : list string :=
  match s with
  | EmptyString => [EmptyString]
  | String c s' =>
      if decide (c = sep) then EmptyString :: split sep s'
      else match split sep s' with
           | h :: t => String c h :: t
           | [] => [String c EmptyString]
           end
  end.

(** [arr.pop()]: the last element, [undefined] on an empty array. *)
Definition pop (l : list string) : option string := last l.

(** Truthiness of a string value: every string but the empty one. *)
Definition truthy (s : string) : bool := negb (String.eqb s "").

(** [arr.join('')] *)
Definition join (l : list string) : string := foldr String.append "" l.

(** Every character of [s] is an ASCII character (below 128). *)
Fixpoint isAscii (s : string) : bool :=
  match s with
  | EmptyString => true
  | String c s' => (nat_of_ascii c <? 128) && isAscii s'
  end.

End Js.

(** ** Plain objects used as dictionaries *)

Module JsObject.
Import Js.

(** What reading a property of an object created by [{}] yields when
    the program assigns values of type [A]: a value assigned under the
    key; a function that [Object.prototype] provides, given by the name
    it bears; or [Object.prototype] itself, which the accessor
    [__proto__] returns. *)
Inductive Value (A : Type) :=
| Own (a : A)
| Builtin (name : string)
| Prototype.

Arguments Own {A} a.
Arguments Builtin {A} name.
Arguments Prototype {A}.

(** The methods of [Object.prototype]: the key of each, and the name
    of the function found there. *)
Definition prototypeMethods : list (string * string) :=
  [("constructor", "Object");
   ("hasOwnProperty", "hasOwnProperty");
   ("isPrototypeOf", "isPrototypeOf");
   ("propertyIsEnumerable", "propertyIsEnumerable");
   ("toLocaleString", "toLocaleString");
   ("toString", "toString");
   ("valueOf", "valueOf");
   ("__defineGetter__", "__defineGetter__");
   ("__defineSetter__", "__defineSetter__");
   ("__lookupGetter__", "__lookupGetter__");
   ("__lookupSetter__", "__lookupSetter__")].

Fixpoint assoc (key : string) (l : list (string * string)) : option string :=
  match l with
  | [] => None
  | (k, v) :: l' => if decide (k = key) then Some v else assoc key l'
  end.

(** The keys that every such object answers without owning them. *)
Definition inheritedKeys : list string := "__proto__" :: prototypeMethods.*1.

(** A read that reaches [Object.prototype]. *)
Definition inherited {A : Type} (key : string) : option (Value A) :=
  if decide (key = "__proto__") then Some Prototype
  else Builtin <$> assoc key prototypeMethods.

(** [obj[key]]: the own property when there is one, else what
    [Object.prototype] has under the key; [None] is [undefined]. *)
Definition get {A : Type} (own : gmap string A) (key : string) : option (Value A) :=
  match own !! key with
  | Some a => Some (Own a)
  | None => inherited key
  end.

(** [obj[key] = value] for a string [value]: an own property is
    created or overwritten, except that with no own property
    [__proto__] the assignment goes to the inherited setter, which
    ignores a value that is not an object. *)
Definition set (own : gmap string string) (key value : string) : gmap string string :=
  if decide (key = "__proto__" ∧ own !! key = None) then own
  else <[key := value]> own.

(** The text that a template literal puts for a value. *)
Definition render (v : Value string) : string :=
  match v with
  | Own s => s
  | Builtin name => "function " +:+ name +:+ "() { [native code] }"
  | Prototype => "[object Object]"
  end.

(** Truthiness: of a string as in [Js.truthy]; functions and objects
    are truthy. *)
Definition truthy (v : Value string) : bool :=
  match v with
  | Own s => Js.truthy s
  | _ => true
  end.

End JsObject.

(** ** The pattern [/\[\[([^\]]+)\]\]/g] *)

Module LinkRegex.

(** The greedy run [[^\]]*]: the longest prefix free of [']'], and
    what follows it. *)
Fixpoint classRun (s : string) : string * string :=
  match s with
  | EmptyString => (EmptyString, EmptyString)
  | String c s' =>
      if decide (c = "]"%char) then (EmptyString, s)
      else let '(run, rest) := classRun s' in (String c run, rest)
  end.

(** [s] holds no [']']. *)
Fixpoint noRBracket (s : string) : bool :=
  match s with
  | EmptyString => true
  | String c s' => if decide (c = "]"%char) then false else noRBracket s'
  end.

(** An attempt of the pattern at the first position of [s]; the result
    is capture group 1.  The class is followed by [']'] in the pattern,
    so giving characters of the run back never lets the rest match:
    the attempt succeeds with the whole run or not at all
    ([matchHere_spec] below relates this to the pattern's language). *)
Definition matchHere (s : string) : option string :=
  match s with
  | String "["%char (String "["%char s1) =>
      match classRun s1 with
      | (String c run, String "]"%char (String "]"%char _)) => Some (String c run)
      | _ => None
      end
  | _ => None
  end.

(** Leftmost attempt that succeeds in [s], which starts at index [pos]
    of the subject string. *)
Fixpoint search (s : string) (pos : nat) : option (nat * string) :=
  match matchHere s with
  | Some linkText => Some (pos, linkText)
  | None =>
      match s with
      | EmptyString => None
      | String _ s' => search s' (S pos)
      end
  end.

(** The match array of [exec]: [index], element 0 and element 1. *)
Record RegExpMatch := {
  index : nat;
  fullMatch : string;
  linkText : string
}.

(** [linkRegex.exec(text)] for a global regex whose [lastIndex] is
    [reLastIndex]: the result and the new [lastIndex] (the end of the
    match, or 0 after a failure). *)
Definition exec (text : string) (reLastIndex : nat) : option RegExpMatch * nat :=
  match search (Js.drop reLastIndex text) reLastIndex with
  | Some (i, g) =>
      let full := "[[" +:+ g +:+ "]]" in
      (Some {| index := i; fullMatch := full; linkText := g |}, i + String.length full)
  | None => (None, 0)
  end.

(** [linkRegex.test(text)] *)
Definition test (text : string) (reLastIndex : nat) : bool * nat :=
  let '(m, li) := exec text reLastIndex in (bool_decide (is_Some m), li).

(** [while ((match = linkRegex.exec(text)) !== null) { body }] for a
    global regex whose [lastIndex] is [reLastIndex] on entry: [exec]
    advances [lastIndex] itself, and [body] updates the variables [st]
    of the enclosing function.  The same iteration is what
    [String.prototype.replace] runs to collect the matches of a global
    regex. *)
Equations? whileExec {St : Type} (body : RegExpMatch → St → St)
    (text : string) (reLastIndex : nat) (st : St) : St
    by wf (String.length text - reLastIndex) lt :=
whileExec body text reLastIndex st with inspect (exec text reLastIndex) := {
  | exist _ (Some m, li) _ => whileExec body text li (body m st);
  | exist _ (None, _) _ => st }.
Proof.
  unfold exec in e.
  destruct (search _ _) as [[i g]|] eqn:Hs; [|discriminate].
  injection e as _ <-.
  assert (Happ : ∀ a b, String.length (a +:+ b) = String.length a + String.length b).
  { clear. induction a; intros b; simpl; [|rewrite IHa]; reflexivity. }
  assert (Hrun : ∀ s run rest, classRun s = (run, rest) →
            String.length s = String.length run + String.length rest).
  { clear. induction s as [|d s IH]; intros run rest; simpl.
    - intros [= <- <-]. reflexivity.
    - destruct (decide (d = "]"%char)).
      + intros [= <- <-]. reflexivity.
      + destruct (classRun s) as [r1 r2]. intros [= <- <-]. simpl.
        rewrite (IH r1 r2 eq_refl). reflexivity. }
  assert (Hhere : ∀ s g, matchHere s = Some g →
            String.length g + 4 ≤ String.length s).
  { clear -Hrun. intros s g Hm. unfold matchHere in Hm.
    destruct s as [|c s]; [discriminate|].
    destruct c as [[] [] [] [] [] [] [] []]; try discriminate.
    destruct s as [|c2 s1]; [discriminate|].
    destruct c2 as [[] [] [] [] [] [] [] []]; try discriminate.
    destruct (classRun s1) as [run rest] eqn:Hr. apply Hrun in Hr.
    destruct run as [|r0 run]; [discriminate|].
    destruct rest as [|e1 rest]; [discriminate|].
    destruct e1 as [[] [] [] [] [] [] [] []]; try discriminate.
    destruct rest as [|e2 rest]; [discriminate|].
    destruct e2 as [[] [] [] [] [] [] [] []]; try discriminate.
    injection Hm as <-. simpl in *. lia. }
  assert (Hgen : ∀ s pos i g, search s pos = Some (i, g) →
            pos ≤ i ∧ i + (String.length g + 4) ≤ pos + String.length s).
  { clear -Hhere. induction s as [|c s IH]; intros pos i g; cbn [search].
    - simpl. discriminate.
    - destruct (matchHere (String c s)) as [t|] eqn:Hm.
      + intros [= <- <-]. apply Hhere in Hm. lia.
      + intros H. apply IH in H. simpl in *. lia. }
  apply Hgen in Hs.
  assert (Hd : ∀ n s, String.length (Js.drop n s) = String.length s - n).
  { clear. induction n; destruct s; simpl; auto. }
  rewrite Hd in Hs. rewrite !Happ. simpl. lia.
Qed.

(** The matches of the global regex in [text], in order: the values of
    successive [exec] calls, starting with [lastIndex = reLastIndex],
    until [null]. *)
Definition matchesFrom (text : string) (reLastIndex : nat) : list RegExpMatch :=
  whileExec (fun m acc => acc ++ [m]) text reLastIndex [].

Definition matchAll (text : string) : list RegExpMatch := matchesFrom text 0.

End LinkRegex.

(** ** Notes and the alias index ([getTitleToSlugMap]) *)

Module Markdown.
Import Js LinkRegex.

(** [NoteData], as produced by [getAllMarkdownFiles]. *)
Record NoteData := {
  slug : string;
  path : string;
  category : string;
  title : string;
  description : string;
  tags : list string;
  date : string
}.

(** The entry that [scanDirectory] pushes for a markdown file found at
    [itemRelativePath] below directory [relativePath], whose front matter
    has the fields [fmTitle], [fmDescription], [fmTags] and [fmDate]
    (absent or falsy fields take the defaults of the source). *)
Definition orElse (o : option string) (d : string) : string :=
  match o with
  | Some s => if truthy s then s else d
  | None => d
  end.

Definition scanEntry (relativePath itemRelativePath : string)
    (fmTitle fmDescription : option string) (fmTags : option (list string))
    (fmDate : option string) : NoteData :=
  let slug := replace "/" "-" (replace ".md" "" itemRelativePath) in
  {| slug := slug;
     path := itemRelativePath;
     category := if truthy relativePath then relativePath else "general";
     title := orElse fmTitle slug;
     description := orElse fmDescription "";
     tags := default [] fmTags;
     date := orElse fmDate "" |}.

(** The body of the [forEach] callback of [getTitleToSlugMap]: four
    property assignments, the last one guarded by [if (filename)]. *)
Definition registerFile (titleToSlug : gmap string string) (file : NoteData)
    : gmap string string :=
  let m1 := JsObject.set titleToSlug (toLowerCase (title file)) (slug file) in
  let m2 := JsObject.set m1 (slug file) (slug file) in
  let originalPath := replace ".md" "" (path file) in
  let m3 := JsObject.set m2 (toLowerCase originalPath) (slug file) in
  let filename := (fun f => replace ".md" "" f) <$> pop (split "/" (path file)) in
  match filename with
  | Some f => if truthy f then JsObject.set m3 (toLowerCase f) (slug file) else m3
  | None => m3
  end.

(** [getTitleToSlugMap], as a function of the list that
    [getAllMarkdownFiles] returns. *)
Definition getTitleToSlugMap (files : list NoteData) : gmap string string :=
  foldl registerFile ∅ files.

(** ** The document tree *)

(** [data] of a node: [{ hName, hProperties: { className } }]. *)
Record NodeData := {
  hName : string;
  className : string
}.

(** The mdast nodes the plugin reads or builds: text nodes, links, any
    other parent node (root, paragraph, emphasis, ...) and any other
    leaf that carries a value (inline code, code, html, ...). *)
#[warnings="-register-all"]
Inductive Node :=
| Text (value : string) (data : option NodeData)
| Link (url : string) (children : list Node)
| Parent (type : string) (children : list Node)
| Literal (type : string) (value : string).

Definition brokenLinkData : NodeData :=
  {| hName := "span"; className := "text-red-500 font-mono" |}.

(** [titleToSlug[linkText.toLowerCase()]], as the test [if (slug)] and
    the template literals of the source read the value: [None] is
    [undefined]; [Some s] is a value that a template literal renders as
    [s], and that is truthy exactly when [s] is not empty (the text of
    an inherited function or object is never empty). *)
Definition resolveSlug (titleToSlug : gmap string string) (linkText : string)
    : option string :=
  JsObject.render <$> JsObject.get titleToSlug (toLowerCase linkText).

(** "Create the link": the node pushed for one match. *)
Definition linkNode (titleToSlug : gmap string string) (linkText : string) : Node :=
  match resolveSlug titleToSlug linkText with
  | Some slug =>
      if truthy slug then Link ("/" +:+ slug) [Text linkText None]
      else Text linkText (Some brokenLinkData)
  | None => Text linkText (Some brokenLinkData)
  end.

(** The variables that the loop of the visitor updates: the local
    [lastIndex] and [newNodes]. *)
Record LoopState := {
  lastIndex : nat;
  newNodes : list Node
}.

(** The body of the loop for the match [m]. *)
Definition loopBody (titleToSlug : gmap string string) (text : string)
    (m : RegExpMatch) (st : LoopState) : LoopState :=
  let startIndex := index m in
  let nodes1 :=
    if decide (lastIndex st < startIndex)
    then newNodes st ++ [Text (slice text (lastIndex st) startIndex) None]
    else newNodes st in
  let nodes2 := nodes1 ++ [linkNode titleToSlug (linkText m)] in
  {| lastIndex := startIndex + String.length (fullMatch m);
     newNodes := nodes2 |}.

(** The visitor that [visit(tree, 'text', ...)] calls on a text node
    with value [text]; [hasParent] tells whether the traversal supplied
    a parent with children and an index (it does for every node but the
    root).  [None] is an early [return], which leaves the tree as it is;
    [Some nodes] is [parent.children.splice(index, 1, ...nodes)].  Each
    call evaluates the regex literal afresh, so [lastIndex] starts at 0;
    a successful [test] moves it and the source resets it. *)
Definition visitor (titleToSlug : gmap string string) (text : string)
    (hasParent : bool) : option (list Node) :=
  let '(found, _) := test text 0 in
  if negb found then None
  else if negb hasParent then None
  else
    let st := whileExec (loopBody titleToSlug text) text 0
                {| lastIndex := 0; newNodes := [] |} in
    Some (if decide (lastIndex st < String.length text)
          then newNodes st ++ [Text (sliceFrom text (lastIndex st)) None]
          else newNodes st).

(** The traversal below a parent: what takes the place of the child
    [node] in [parent.children].  Text children go through the visitor;
    the traversal descends into every other child. *)
Fixpoint visitChild (titleToSlug : gmap string string) (node : Node) : list Node :=
  match node with
  | Text v d =>
      match visitor titleToSlug v true with
      | Some nodes => nodes
      | None => [node]
      end
  | Link url children => [Link url (flat_map (visitChild titleToSlug) children)]
  | Parent ty children => [Parent ty (flat_map (visitChild titleToSlug) children)]
  | Literal _ _ => [node]
  end.

(** The transformer returned by [remarkInternalLinks()], applied to the
    root [tree]; [files] is what [getAllMarkdownFiles] returned when the
    plugin was created. *)
Definition remarkInternalLinks (files : list NoteData) (tree : Node) : Node :=
  let titleToSlug := getTitleToSlugMap files in
  match tree with
  | Text v d =>
      match visitor titleToSlug v false with
      | Some _ => tree
      | None => tree
      end
  | Link url children => Link url (flat_map (visitChild titleToSlug) children)
  | Parent ty children => Parent ty (flat_map (visitChild titleToSlug) children)
  | Literal _ _ => tree
  end.

End Markdown.

(** ** The string-level rewrite of the note page *)

Module Page.
Import Js LinkRegex Markdown.

(** The character [U+0022], written by its code. *)
Definition dquote : string := String (ascii_of_nat 34) EmptyString.

(** The replacer callback [(match, linkText) => ...]. *)
Definition replacer (titleToSlug : gmap string string) (linkText : string) : string :=
  match resolveSlug titleToSlug linkText with
  | Some slug =>
      if truthy slug then "[" +:+ linkText +:+ "](/" +:+ slug +:+ ")"
      else "<span class=" +:+ dquote +:+ "text-red-500 font-mono" +:+ dquote +:+ ">"
           +:+ linkText +:+ "</span>"
  | None =>
      "<span class=" +:+ dquote +:+ "text-red-500 font-mono" +:+ dquote +:+ ">"
      +:+ linkText +:+ "</span>"
  end.

(** [content.replace(regex, fn)] for the global link regex, as the
    language defines it: the matches are collected by repeated [exec]
    from [lastIndex = 0]; then, for each match that starts at or after
    the position reached, the result takes the text since that position
    and the value of [fn] at the match; what follows the last match
    ends the result. *)
Record ReplaceState := {
  nextSourcePosition : nat;
  accumulatedResult : string
}.

Definition replaceStep (fn : string → string) (content : string)
    (m : RegExpMatch) (st : ReplaceState) : ReplaceState :=
  if decide (nextSourcePosition st ≤ index m)
  then {| nextSourcePosition := index m + String.length (fullMatch m);
          accumulatedResult :=
            accumulatedResult st
            +:+ slice content (nextSourcePosition st) (index m)
            +:+ fn (linkText m) |}
  else st.

Definition replaceAllLinks (fn : string → string) (content : string) : string :=
  let results := matchAll content in
  let st := foldl (fun st m => replaceStep fn content m st)
              {| nextSourcePosition := 0; accumulatedResult := "" |} results in
  accumulatedResult st +:+ sliceFrom content (nextSourcePosition st).

(** [processedContent] of [NotePage]. *)
Definition processedContent (files : list NoteData) (content : string) : string :=
  replaceAllLinks (replacer (getTitleToSlugMap files)) content.

End Page.

(** ** The reading history *)

Module ReadingHistory.

Record ReadingHistoryItem := {
  slug : string;
  title : string;
  visitedAt : nat
}.

Definition MAX_HISTORY_SIZE : nat := 5.

(** The browser's [localStorage] at key ['reading-history']: [None]
    when the key is absent, else the list that [JSON.parse] yields for
    the stored text ([JSON.stringify] and [JSON.parse] are inverse on
    lists of items). *)
Definition Storage : Type := option (list ReadingHistoryItem).

(** [getHistory] in the browser ([window] is defined). *)
Definition getHistory (store : Storage) : list ReadingHistoryItem :=
  match store with
  | Some stored => stored
  | None => []
  end.

(** [addToHistory(slug, title)] when [Date.now()] is [now]: the new
    content of the store. *)
Definition addToHistory (now : nat) (slug0 title0 : string) (store : Storage) : Storage :=
  let history := getHistory store in
  let filteredHistory := filter (fun item => slug item ≠ slug0) history in
  let newHistory :=
    take MAX_HISTORY_SIZE
      ({| slug := slug0; title := title0; visitedAt := now |} :: filteredHistory) in
  Some newHistory.

Definition clearHistory (store : Storage) : Storage := None.

End ReadingHistory.

(** ** Notions used to state the properties *)

Module Notions.
Import Js LinkRegex Markdown.

(** The matches found from index [re] on, with the text around them:
    each match is preceded by [k] characters that hold no occurrence,
    and no occurrence is left after the last one. *)
Inductive Scan (text : string) : nat → list RegExpMatch → Prop :=
| scan_done (re : nat) :
    search (drop re text) 0 = None → Scan text re []
| scan_step (re k : nat) (m : RegExpMatch) (ms : list RegExpMatch) :
    index m = re + k →
    fullMatch m = "[[" +:+ linkText m +:+ "]]" →
    drop re text = take k (drop re text) +:+ fullMatch m
                   +:+ drop (index m + String.length (fullMatch m)) text →
    String.length (take k (drop re text)) = k →
    search (take k (drop re text)) 0 = None →
    linkText m ≠ "" → noRBracket (linkText m) = true →
    index m + String.length (fullMatch m) ≤ String.length text →
    Scan text (index m + String.length (fullMatch m)) ms →
    Scan text re (m :: ms).

(** [text] holds at least one occurrence of the pattern. *)
Definition hasLinkToken (text : string) : bool := (test text 0).1.

(** The keys under which the builder assigns the slug of one document:
    the lower-cased title, the slug as it stands, the lower-cased path
    without its first [.md], and the lower-cased last path segment
    without its first [.md] when that is not empty. *)
Definition aliases (file : NoteData) : list string :=
  [toLowerCase (title file); slug file;
   toLowerCase (replace ".md" "" (path file))]
  ++ match (fun f => replace ".md" "" f) <$> pop (split "/" (path file)) with
     | Some f => if truthy f then [toLowerCase f] else []
     | None => []
     end.

(** The last document of [files] that registers the key [k]. *)
Definition lastWithAlias (k : string) (files : list NoteData) : option NoteData :=
  last (filter (fun f => k ∈ aliases f) files).

(** *** The index as the specification words it

    Aliases normalized by lower-casing and trimming; the path and the
    final path segment with the extension stripped. *)
Fixpoint trimStart (s : string) : string :=
  match s with
  | EmptyString => EmptyString
  | String c s' => if Ascii.is_space c then trimStart s' else s
  end.

Definition trim (s : string) : string :=
  String.rev (trimStart (String.rev (trimStart s))).

Definition normalize (s : string) : string := trim (toLowerCase s).

(** Reading a segment from its end: what precedes the last ['.'], if
    the segment has one. *)
Fixpoint beforeLastDot (reversed : string) : option string :=
  match reversed with
  | EmptyString => None
  | String c r =>
      if decide (c = "."%char) then Some r
      else if decide (c = "/"%char) then None
      else beforeLastDot r
  end.

Definition stripExtension (s : string) : string :=
  match beforeLastDot (String.rev s) with
  | Some r => String.rev r
  | None => s
  end.

Definition finalSegment (p : string) : string := default "" (pop (split "/" p)).

Definition specAliases (file : NoteData) : list string :=
  [normalize (title file); normalize (slug file);
   normalize (stripExtension (path file));
   normalize (stripExtension (finalSegment (path file)))].

Definition specIndex (files : list NoteData) : gmap string string :=
  foldl (fun m file => foldl (fun m k => <[k := slug file]> m) m (specAliases file))
        ∅ files.

(** *** Reading the replacement nodes *)

(** A literal segment: a text node without presentation data. *)
Definition isLiteral (n : Node) : bool :=
  match n with
  | Text _ None => true
  | _ => false
  end.

(** The textual content of a node. *)
Fixpoint textContent (n : Node) : string :=
  match n with
  | Text v _ => v
  | Link _ children => join (map textContent children)
  | Parent _ children => join (map textContent children)
  | Literal _ v => v
  end.

(** The text a node stands for in the original string: a literal
    segment stands for itself, a replacement node for its display text
    between the double brackets. *)
Definition sourceText (n : Node) : string :=
  if isLiteral n then textContent n else "[[" +:+ textContent n +:+ "]]".

(** What the visitor builds: a non-empty literal segment that holds no
    occurrence, or the node made for a match, whose capture is
    non-empty and free of [']']. *)
Inductive Piece (titleToSlug : gmap string string) : Node → Prop :=
| piece_literal (v : string) :
    v ≠ "" → hasLinkToken v = false → Piece titleToSlug (Text v None)
| piece_link (g : string) :
    g ≠ "" → noRBracket g = true → Piece titleToSlug (linkNode titleToSlug g).

(** [s] holds the two characters []]] somewhere. *)
Fixpoint hasDoubleClose (s : string) : bool :=
  match s with
  | EmptyString => false
  | String _ s' =>
      match stripPrefix "]]" s with
      | Some _ => true
      | None => hasDoubleClose s'
      end
  end.

(** The markdown or HTML text that stands for a node built by the
    visitor: a literal segment is itself, a link is [[text](url)], and
    a text node with presentation data is the element named by [hName]
    with its class. *)
Definition markdownOf (n : Node) : string :=
  match n with
  | Text v None => v
  | Text v (Some d) =>
      "<" +:+ hName d +:+ " class=" +:+ Page.dquote +:+ className d +:+ Page.dquote
      +:+ ">" +:+ v +:+ "</" +:+ hName d +:+ ">"
  | Link url children => "[" +:+ join (map textContent children) +:+ "](" +:+ url +:+ ")"
  | _ => ""
  end.

(** Every text node below [n] is free of link tokens. *)
Fixpoint noLinkToken (n : Node) : bool :=
  match n with
  | Text v _ => negb (hasLinkToken v)
  | Link _ children => forallb noLinkToken children
  | Parent _ children => forallb noLinkToken children
  | Literal _ _ => true
  end.

(** The store after a sequence of [addToHistory] calls, each given
    with its time, slug and title. *)
Definition replay (calls : list (nat * string * string))
    (store : ReadingHistory.Storage) : ReadingHistory.Storage :=
  foldl (fun st c => ReadingHistory.addToHistory c.1.1 c.1.2 c.2 st) store calls.

End Notions.

(** ** Sample inputs *)

Module Samples.
Import Js LinkRegex Markdown.

(** A note [tokyo.md] whose front matter gives the title with a space
    on either side. *)
Definition paddedTitleFiles : list NoteData :=
  [scanEntry "" "tokyo.md" (Some " Tokyo Trip ") None None None].

(** Two notes that share the file name [guide.md], in scan order. *)
Definition guideRoot : NoteData :=
  scanEntry "" "guide.md" (Some "Guide") None None None.

Definition guideNested : NoteData :=
  scanEntry "notes" "notes/guide.md" (Some "Field notes") None None None.

Definition guideFiles : list NoteData := [guideRoot; guideNested].

(** The note [tokyo-adventure.md] titled "Tokyo Adventure". *)
Definition tokyoFiles : list NoteData :=
  [scanEntry "" "tokyo-adventure.md" (Some "Tokyo Adventure") None None None].

(** The index [{ "tokyo adventure": "tokyo-adventure",
    "tokyo-adventure": "tokyo-adventure" }]. *)
Definition tokyoIndex : gmap string string :=
  <["tokyo-adventure" := "tokyo-adventure"]>
    (<["tokyo adventure" := "tokyo-adventure"]> ∅).

(** The only match in ["See [[Nonexistent Page]] guide"]. *)
Definition nonexistentMatch : RegExpMatch :=
  {| index := 4;
     fullMatch := "[[Nonexistent Page]]";
     linkText := "Nonexistent Page" |}.

(** A stored history in which one slug occurs twice. *)
Definition duplicatedHistory : ReadingHistory.Storage :=
  Some [ {| ReadingHistory.slug := "a"; ReadingHistory.title := "A";
            ReadingHistory.visitedAt := 1 |};
         {| ReadingHistory.slug := "a"; ReadingHistory.title := "A";
            ReadingHistory.visitedAt := 2 |} ].

(** A stored history of six distinct notes. *)
Definition longHistory : ReadingHistory.Storage :=
  Some (map (fun s => {| ReadingHistory.slug := s; ReadingHistory.title := s;
                         ReadingHistory.visitedAt := 0 |})
            ["a"; "b"; "c"; "d"; "e"; "f"]).

End Samples.

(** ** The content directory and its scans *)

Module Site.
Import Js LinkRegex Markdown Page.

(** What [matter(fileContent)] yields for a file: the front-matter
    fields that the site reads, and the content after the front
    matter. *)
Record FileData := {
  fmTitle : option string;
  fmDescription : option string;
  fmTags : option (list string);
  fmDate : option string;
  content : string
}.

(** A directory as [fs.readdirSync] and [fs.statSync] show it: the
    items in listing order, each a file or a directory. *)
#[warnings="-register-all"]
Inductive FsItem :=
| FsFile (name : string) (data : FileData)
| FsDir (name : string) (items : list FsItem).

Definition itemName (item : FsItem) : string :=
  match item with
  | FsFile name _ => name
  | FsDir name _ => name
  end.

(** [s.endsWith(suffix)]: some tail of [s] is [suffix]. *)
Fixpoint endsWith (s suffix : string) : bool :=
  if String.eqb s suffix then true
  else match s with
       | EmptyString => false
       | String _ s' => endsWith s' suffix
       end.

(** [relativePath ? `${relativePath}/${item}` : item] *)
Definition itemRelativePath (relativePath item : string) : string :=
  if truthy relativePath then relativePath +:+ "/" +:+ item else item.

(** The callback of [items.forEach] in [scanDirectory] of
    [getAllMarkdownFiles]: the notes pushed for one item. *)
Fixpoint scanItem (relativePath : string) (item : FsItem) : list NoteData :=
  match item with
  | FsDir name items =>
      flat_map (scanItem (itemRelativePath relativePath name)) items
  | FsFile name data =>
      if endsWith name ".md"
      then [scanEntry relativePath (itemRelativePath relativePath name)
              (fmTitle data) (fmDescription data) (fmTags data) (fmDate data)]
      else []
  end.

(** [getAllMarkdownFiles], for the content directory [root]. *)
Definition getAllMarkdownFiles (root : list FsItem) : list NoteData :=
  flat_map (scanItem "") root.

(** The callback of [items.forEach] in [scanDirectory] of
    [getSlugToFileMap]: the assignments made for one item. *)
Fixpoint slugScanItem (relativePath : string) (item : FsItem)
    (slugToFile : gmap string string) : gmap string string :=
  match item with
  | FsDir name items =>
      foldl (fun m it => slugScanItem (itemRelativePath relativePath name) it m)
            slugToFile items
  | FsFile name _ =>
      if endsWith name ".md"
      then JsObject.set slugToFile
             (replace "/" "-" (replace ".md" "" (itemRelativePath relativePath name)))
             (itemRelativePath relativePath name)
      else slugToFile
  end.

(** [getSlugToFileMap], for the content directory [root]. *)
Definition getSlugToFileMap (root : list FsItem) : gmap string string :=
  foldl (fun m it => slugScanItem "" it m) ∅ root.

(** The first item called [name] in a directory. *)
Definition findItem (name : string) (items : list FsItem) : option FsItem :=
  List.find (fun it => bool_decide (itemName it = name)) items.

(** Opening the file at the path made of [segments] below [items];
    [None] when there is no such file. *)
Fixpoint openFile (segments : list string) (items : list FsItem) : option FileData :=
  match segments with
  | [] => None
  | [name] =>
      match findItem name items with
      | Some (FsFile _ data) => Some data
      | _ => None
      end
  | name :: rest =>
      match findItem name items with
      | Some (FsDir _ sub) => openFile rest sub
      | _ => None
      end
  end.

(** [readMarkdownFile(filePath)]: the parsed file at [filePath] below
    the content directory; [None] is the exception of
    [fs.readFileSync]. *)
Definition readMarkdownFile (root : list FsItem) (filePath : string) : option FileData :=
  openFile (split "/" filePath) root.

(** What [NotePage] does for the route parameter [slug]: it answers
    "Note not found"; or [readMarkdownFile] throws, in [path.join] when
    [filePath] is not a string ([PathFailure]) or in [fs.readFileSync]
    ([ReadFailure]); or it goes on with the title handed to
    [ReadingTracker] and the [processedContent] handed to the markdown
    converter. *)
Inductive PageResult :=
| NoteNotFound
| PathFailure
| ReadFailure
| Rendered (title : string) (processedContent : string).

Definition notePage (root : list FsItem) (slug : string) : PageResult :=
  match JsObject.get (getSlugToFileMap root) slug with
  | None => NoteNotFound
  | Some (JsObject.Own filePath) =>
      if negb (truthy filePath) then NoteNotFound
      else match readMarkdownFile root filePath with
           | None => ReadFailure
           | Some data =>
               Rendered (orElse (fmTitle data) slug)
                        (processedContent (getAllMarkdownFiles root) (content data))
           end
  | Some _ => PathFailure
  end.

(** The callback of [notes.reduce] in [HomePage]: the accumulator
    after one note, or [None] when [acc[note.category].push] is not a
    function and the call throws.  Whatever a read finds is truthy (an
    array, a function or [Object.prototype]), so the empty array is
    assigned only when the read finds nothing. *)
Definition groupNote (acc : gmap string (list NoteData)) (note : NoteData)
    : option (gmap string (list NoteData)) :=
  let acc1 :=
    match JsObject.get acc (category note) with
    | Some _ => acc
    | None => <[category note := []]> acc
    end in
  match JsObject.get acc1 (category note) with
  | Some (JsObject.Own notes) => Some (<[category note := notes ++ [note]]> acc1)
  | _ => None
  end.

(** [categories] of [HomePage]; [None] when the reduction throws. *)
Definition categories (notes : list NoteData) : option (gmap string (list NoteData)) :=
  foldl (fun acc note => acc ≫= fun a => groupNote a note) (Some ∅) notes.

End Site.

(** ** The reading-history hook *)

Module Hook.
Import ReadingHistory.

(** The state of one [useReadingHistory] instance. *)
Record HookState := {
  history : list ReadingHistoryItem;
  isLoading : bool
}.

Definition initialState : HookState := {| history := []; isLoading := true |}.

(** What can happen to an instance: its mount effect, and a call of
    one of the callbacks it returns. *)
Inductive HookEvent :=
| Mount
| AddToHistory (now : nat) (slug title : string)
| ClearHistory
| RefreshHistory.

(** One event, on the browser's store and the instance's state. *)
Definition hookStep (w : Storage * HookState) (e : HookEvent) : Storage * HookState :=
  let '(store, st) := w in
  match e with
  | Mount => (store, {| history := getHistory store; isLoading := false |})
  | AddToHistory now slug title =>
      let store' := addToHistory now slug title store in
      (store', {| history := getHistory store'; isLoading := isLoading st |})
  | ClearHistory =>
      (clearHistory store, {| history := []; isLoading := isLoading st |})
  | RefreshHistory =>
      (store, {| history := getHistory store; isLoading := isLoading st |})
  end.

Definition hookRun (w : Storage * HookState) (events : list HookEvent)
    : Storage * HookState :=
  foldl hookStep w events.

End Hook.

(** ** More notions and sample inputs *)

Module SiteNotions.
Import Js LinkRegex Markdown Site.

(** Names as a directory listing gives them: not empty, without ['/'],
    and no two items of one directory with the same name, at every
    level. *)
Fixpoint hasSlash (s : string) : bool :=
  match s with
  | EmptyString => false
  | String c s' => if decide (c = "/"%char) then true else hasSlash s'
  end.

Fixpoint wellFormed (item : FsItem) : Prop :=
  itemName item ≠ "" ∧ hasSlash (itemName item) = false ∧
  match item with
  | FsFile _ _ => True
  | FsDir _ items =>
      NoDup (map itemName items) ∧
      (fix all (l : list FsItem) : Prop :=
         match l with
         | [] => True
         | it :: l' => wellFormed it ∧ all l'
         end) items
  end.

Definition wellFormedDir (items : list FsItem) : Prop :=
  NoDup (map itemName items) ∧ Forall wellFormed items.

(** [s] holds the character [c]. *)
Fixpoint contains (c : ascii) (s : string) : bool :=
  match s with
  | EmptyString => false
  | String x s' => if decide (x = c) then true else contains c s'
  end.

(** A file or folder name without ['.'] and ['/']. *)
Definition plainName (s : string) : Prop :=
  contains "." s = false ∧ contains "/" s = false.

(** The last note of [notes] whose slug is [s]. *)
Definition lastWithSlug (s : string) (notes : list NoteData) : option NoteData :=
  last (filter (fun f => slug f = s) notes).

(** The link nodes below a node. *)
Fixpoint linkUrls (n : Node) : list string :=
  match n with
  | Text _ _ => []
  | Link url children => url :: flat_map linkUrls children
  | Parent _ children => flat_map linkUrls children
  | Literal _ _ => []
  end.

(** A small content directory: a note at the top, a folder with a
    note and a text file. *)
Definition sampleRoot : list FsItem :=
  [FsFile "guide.md" {| fmTitle := Some "Guide"; fmDescription := None;
                        fmTags := None; fmDate := None;
                        content := "See [[Tokyo Adventure]]." |};
   FsDir "destinations"
     [FsFile "tokyo-adventure.md"
        {| fmTitle := Some "Tokyo Adventure"; fmDescription := None;
           fmTags := Some ["japan"]; fmDate := None;
           content := "Back to the [[guide]] or to [[nowhere]]." |};
      FsFile "notes.txt" {| fmTitle := None; fmDescription := None;
                            fmTags := None; fmDate := None; content := "" |}]].

End SiteNotions.

(** ** The index as the specification words it, without trimming *)

Module IndexNotions.
Import Js LinkRegex Markdown Notions SiteNotions.

(** The four aliases of a document, normalized by lower-casing alone:
    the title, the id, the path with its extension stripped and the
    final path segment with its extension stripped. *)
Definition lowerAliases (file : NoteData) : list string :=
  [toLowerCase (title file); toLowerCase (slug file);
   toLowerCase (stripExtension (path file));
   toLowerCase (stripExtension (finalSegment (path file)))].

Definition lowerIndex (files : list NoteData) : gmap string string :=
  foldl (fun m file => foldl (fun m k => <[k := slug file]> m) m (lowerAliases file))
        ∅ files.

(** The last document of [files] with the alias [k]. *)
Definition lastWithLowerAlias (k : string) (files : list NoteData) : option NoteData :=
  last (filter (fun f => k ∈ lowerAliases f) files).

(** [s] holds the text [pat] somewhere. *)
Fixpoint hasPart (pat s : string) : bool :=
  match stripPrefix pat s with
  | Some _ => true
  | None =>
      match s with
      | EmptyString => false
      | String _ s' => hasPart pat s'
      end
  end.

(** A document with an id in lower-case ASCII, a path that ends in the
    extension [.md] and holds no other [.md], a file name that is more
    than the extension, and none of whose aliases is [__proto__]. *)
Definition regular (file : NoteData) : Prop :=
  isAscii (slug file) = true ∧ toLowerCase (slug file) = slug file
  ∧ (∃ stem, path file = stem +:+ ".md" ∧ hasPart ".md" stem = false
             ∧ finalSegment stem ≠ "")
  ∧ "__proto__" ∉ lowerAliases file.

(** The title, the id and the path of a document are ASCII text. *)
Definition asciiNote (file : NoteData) : bool :=
  isAscii (title file) && isAscii (slug file) && isAscii (path file).

(** Two notes [a.md] and [b.md], both titled [__proto__]. *)
Definition protoFiles : list NoteData :=
  [scanEntry "" "a.md" (Some "__proto__") None None None;
   scanEntry "" "b.md" (Some "__proto__") None None None].

End IndexNotions.

(** * Properties *)

(** ** The definitions on small inputs *)

Module Checks.
Import Js LinkRegex Markdown Page Notions Samples.

Example replace_first_only : replace ".md" "" "a.md/b.md" = "a/b.md".
Proof. reflexivity. Qed.

Example split_path : split "/" "notes/guide.md" = ["notes"; "guide.md"].
Proof. reflexivity. Qed.

Example slug_of_nested_path : Markdown.slug guideNested = "notes-guide".
Proof. reflexivity. Qed.

Example aliases_of_nested_note :
  aliases guideNested = ["field notes"; "notes-guide"; "notes/guide"; "guide"].
Proof. reflexivity. Qed.

Example empty_brackets_do_not_match : matchAll "[[]] and [[a]b]]" = [].
Proof. vm_compute. reflexivity. Qed.

Example inner_open_bracket_is_captured :
  matchAll "[[[a]]]" = [{| index := 0; fullMatch := "[[[a]]"; linkText := "[a" |}].
Proof. vm_compute. reflexivity. Qed.

Example two_tokens_in_one_node :
  visitor (<["a" := "a"]> (<["b" := "b"]> ∅)) "[[A]] and [[B]]" true
  = Some [Link "/a" [Text "A" None]; Text " and " None; Link "/b" [Text "B" None]].
Proof. vm_compute. reflexivity. Qed.

Example page_rewrite :
  replaceAllLinks (replacer tokyoIndex) "See [[Tokyo Adventure]] and [[x]]."
  = "See [Tokyo Adventure](/tokyo-adventure) and <span class=" +:+ dquote
    +:+ "text-red-500 font-mono" +:+ dquote +:+ ">x</span>.".
Proof. vm_compute. reflexivity. Qed.

Example inherited_constructor_is_found :
  resolveSlug ∅ "Constructor" = Some "function Object() { [native code] }".
Proof. reflexivity. Qed.

Example inherited_toString_is_not_reached : resolveSlug ∅ "toString" = None.
Proof. reflexivity. Qed.

Example proto_assignment_is_ignored :
  JsObject.set ∅ "__proto__" "note" = ∅
  ∧ JsObject.get (JsObject.set ∅ "constructor" "note") "constructor"
    = Some (JsObject.Own "note").
Proof. split; reflexivity. Qed.

Example history_moves_to_front :
  ReadingHistory.slug <$> ReadingHistory.getHistory
    (ReadingHistory.addToHistory 9 "c" "C" longHistory)
  = ["c"; "a"; "b"; "d"; "e"].
Proof. reflexivity. Qed.

End Checks.

(** ** Strings *)

Module JsFacts.
Import Js.
#[local] Arguments String.append !s1 s2 / : simpl nomatch.

Lemma length_sapp (a b : string) :
  String.length (a +:+ b) = String.length a + String.length b.
Proof. induction a as [|c a IH]; simpl; [|rewrite IH]; reflexivity. Qed.

Lemma sapp_assoc (a b c : string) : (a +:+ b) +:+ c = a +:+ (b +:+ c).
Proof. induction a as [|x a IH]; simpl; [|rewrite IH]; reflexivity. Qed.

Lemma sapp_nil_r (a : string) : a +:+ "" = a.
Proof. induction a as [|x a IH]; simpl; [|rewrite IH]; reflexivity. Qed.

Lemma sapp_cons (c : ascii) (a b : string) : String c a +:+ b = String c (a +:+ b).
Proof. reflexivity. Qed.

Lemma sapp_nil_l (a : string) : "" +:+ a = a.
Proof. reflexivity. Qed.

Lemma stake_sdrop (n : nat) (s : string) : take n s +:+ drop n s = s.
Proof.
  revert s. induction n as [|n IH]; intros [|c s]; simpl; try reflexivity.
  rewrite IH. reflexivity.
Qed.

Lemma length_sdrop (n : nat) (s : string) :
  String.length (drop n s) = String.length s - n.
Proof. revert s. induction n; destruct s; simpl; auto. Qed.

Lemma length_stake (n : nat) (s : string) :
  String.length (take n s) = n `min` String.length s.
Proof. revert s. induction n; destruct s; simpl; auto. Qed.

Lemma sdrop_sdrop (a b : nat) (s : string) : drop b (drop a s) = drop (a + b) s.
Proof.
  revert s. induction a as [|a IH]; intros s; simpl; [reflexivity|].
  destruct s; [destruct b; reflexivity|]. apply IH.
Qed.

Lemma sdrop_0 (s : string) : drop 0 s = s.
Proof. reflexivity. Qed.

Lemma sdrop_all (n : nat) (s : string) : String.length s ≤ n → drop n s = "".
Proof.
  revert s. induction n as [|n IH]; intros [|c s]; simpl; intros H;
    try reflexivity; [lia|]. apply IH. lia.
Qed.

Lemma sdrop_sapp_length (a b : string) : drop (String.length a) (a +:+ b) = b.
Proof. induction a; simpl; auto. Qed.

Lemma stake_sapp_length (a b : string) : take (String.length a) (a +:+ b) = a.
Proof. induction a as [|c a IH]; simpl; [destruct b|rewrite IH]; reflexivity. Qed.

Lemma slength_0 (s : string) : String.length s = 0 → s = "".
Proof. destruct s; [reflexivity|discriminate]. Qed.

Lemma sdrop_nonempty (n : nat) (s : string) : n < String.length s → drop n s ≠ "".
Proof.
  intros H E. apply (f_equal String.length) in E. rewrite length_sdrop in E.
  simpl in E. lia.
Qed.

(** [text.slice(a, b)] inside the text remaining from [a]. *)
Lemma slice_drop (s : string) (a k : nat) :
  slice s a (a + k) = take k (drop a s).
Proof. unfold slice. replace (a + k - a) with k by lia. reflexivity. Qed.

Lemma truthy_true (s : string) : truthy s = true ↔ s ≠ "".
Proof.
  unfold truthy. destruct (String.eqb_spec s ""); simpl; split; congruence.
Qed.

Lemma lowerChar_idemp (c : ascii) : lowerChar (lowerChar c) = lowerChar c.
Proof. destruct c as [[] [] [] [] [] [] [] []]; reflexivity. Qed.

Lemma toLowerCase_idemp (s : string) : toLowerCase (toLowerCase s) = toLowerCase s.
Proof.
  induction s as [|c s IH]; simpl; [reflexivity|].
  rewrite lowerChar_idemp, IH. reflexivity.
Qed.

Lemma join_app (l1 l2 : list string) : join (l1 ++ l2) = join l1 +:+ join l2.
Proof.
  induction l1 as [|x l1 IH]; simpl; [reflexivity|].
  unfold join in *. simpl. rewrite IH, sapp_assoc. reflexivity.
Qed.

End JsFacts.

(** ** The pattern *)

Module RegexFacts.
Import Js LinkRegex JsFacts Notions.
#[local] Arguments String.append !s1 s2 / : simpl nomatch.

Lemma classRun_spec (s run rest : string) :
  classRun s = (run, rest) →
  s = run +:+ rest ∧ noRBracket run = true ∧
  (rest = "" ∨ ∃ r, rest = String "]" r).
Proof.
  revert run rest. induction s as [|c s IH]; intros run rest; simpl.
  - intros [= <- <-]. auto.
  - destruct (decide (c = "]"%char)) as [->|Hc].
    + intros [= <- <-]. eauto.
    + destruct (classRun s) as [r1 r2]. intros [= <- <-].
      destruct (IH r1 r2 eq_refl) as (-> & Hr & Hrest).
      simpl. rewrite decide_False by exact Hc. auto.
Qed.

Lemma classRun_complete (run r : string) :
  noRBracket run = true →
  classRun (run +:+ String "]" r) = (run, String "]" r).
Proof.
  induction run as [|c run IH]; simpl; [reflexivity|].
  destruct (decide (c = "]"%char)); [discriminate|].
  intros H. rewrite (IH H). reflexivity.
Qed.

(** The attempt at one position succeeds exactly on the strings of the
    pattern's language: [[[], a non-empty run free of []], then []]]. *)
Lemma matchHere_spec (s g : string) :
  matchHere s = Some g ↔
  g ≠ "" ∧ noRBracket g = true ∧ ∃ rest, s = "[[" +:+ g +:+ "]]" +:+ rest.
Proof.
  split.
  - unfold matchHere. intros Hm.
    destruct s as [|c s]; [discriminate|].
    destruct (decide (c = "["%char)) as [->|Hc];
      [|destruct c as [[] [] [] [] [] [] [] []]; try discriminate; by destruct Hc].
    destruct s as [|c2 s1]; [discriminate|].
    destruct (decide (c2 = "["%char)) as [->|Hc];
      [|destruct c2 as [[] [] [] [] [] [] [] []]; try discriminate; by destruct Hc].
    destruct (classRun s1) as [run rest] eqn:Hr.
    apply classRun_spec in Hr as (-> & Hrun & _).
    destruct run as [|r0 run]; [discriminate|].
    destruct rest as [|e1 rest]; [discriminate|].
    destruct (decide (e1 = "]"%char)) as [->|Hc];
      [|destruct e1 as [[] [] [] [] [] [] [] []]; try discriminate; by destruct Hc].
    destruct rest as [|e2 rest]; [discriminate|].
    destruct (decide (e2 = "]"%char)) as [->|Hc];
      [|destruct e2 as [[] [] [] [] [] [] [] []]; try discriminate; by destruct Hc].
    injection Hm as <-. split; [discriminate|]. split; [exact Hrun|].
    exists rest. reflexivity.
  - intros (Hg & Hrun & rest & ->).
    destruct g as [|c g]; [by destruct Hg|].
    change ("[[" +:+ String c g +:+ "]]" +:+ rest)
      with (String "[" (String "[" (String c g +:+ String "]" (String "]" rest)))).
    unfold matchHere. rewrite (classRun_complete _ _ Hrun). reflexivity.
Qed.

Lemma matchHere_app (a b g : string) :
  matchHere a = Some g → matchHere (a +:+ b) = Some g.
Proof.
  rewrite !matchHere_spec. intros (Hg & Hrun & rest & ->).
  split; [exact Hg|]. split; [exact Hrun|]. exists (rest +:+ b).
  rewrite !sapp_assoc. reflexivity.
Qed.

Lemma matchHere_length (s g : string) :
  matchHere s = Some g → String.length g + 4 ≤ String.length s.
Proof.
  rewrite matchHere_spec. intros (_ & _ & rest & ->).
  rewrite !length_sapp. simpl. lia.
Qed.

(** A string free of []] holds no occurrence. *)
Lemma matchHere_noRBracket (s : string) :
  noRBracket s = true → matchHere s = None.
Proof.
  intros Hs. destruct (matchHere s) as [g|] eqn:Hm; [|reflexivity].
  apply matchHere_spec in Hm as (_ & _ & rest & ->). exfalso.
  revert Hs. generalize (rest). clear. intros rest.
  change ("[[" +:+ g +:+ "]]" +:+ rest) with (String "[" (String "[" (g +:+ "]]" +:+ rest))).
  simpl. induction g as [|c g IH]; simpl; [discriminate|].
  destruct (decide (c = "]"%char)); [discriminate|exact IH].
Qed.

Lemma noRBracket_tail (c : ascii) (s : string) :
  noRBracket (String c s) = true → noRBracket s = true.
Proof. simpl. destruct (decide (c = "]"%char)); [discriminate|auto]. Qed.

Lemma search_noRBracket (s : string) (pos : nat) :
  noRBracket s = true → search s pos = None.
Proof.
  revert pos. induction s as [|c s IH]; intros pos Hs; cbn [search].
  - reflexivity.
  - rewrite (matchHere_noRBracket _ Hs). apply IH.
    exact (noRBracket_tail _ _ Hs).
Qed.

(** The start index only shifts the result. *)
Lemma search_shift (s : string) (pos : nat) :
  search s pos = (fun r => (pos + r.1, r.2)) <$> search s 0.
Proof.
  revert pos. induction s as [|c s IH]; intros pos; cbn [search].
  - destruct (matchHere ""); simpl; [f_equal; f_equal; lia|reflexivity].
  - destruct (matchHere (String c s)); simpl; [f_equal; f_equal; lia|].
    rewrite (IH (S pos)), (IH 1).
    destruct (search s 0) as [[i g]|]; simpl; [f_equal; f_equal; lia|reflexivity].
Qed.

Lemma search_None_iff (s : string) (pos : nat) :
  search s pos = None ↔ search s 0 = None.
Proof. rewrite search_shift. destruct (search s 0); simpl; split; congruence. Qed.

(** A successful search: the match starts [k] characters into [s],
    and nothing matches in the [k] characters before it. *)
Lemma search_Some (s : string) (pos i : nat) (g : string) :
  search s pos = Some (i, g) →
  ∃ k, i = pos + k ∧ matchHere (drop k s) = Some g ∧ search (take k s) 0 = None.
Proof.
  revert pos. induction s as [|c s IH]; intros pos; cbn [search].
  - destruct (matchHere "") eqn:Hm; [|discriminate].
    intros [= <- <-]. exists 0. split; [lia|]. split; [exact Hm|reflexivity].
  - destruct (matchHere (String c s)) as [t|] eqn:Hm.
    + intros [= <- <-]. exists 0. split; [lia|]. split; [exact Hm|reflexivity].
    + intros H. apply IH in H as (k & -> & Hk & Hpre).
      exists (S k). split; [lia|]. split; [exact Hk|].
      cbn [take search].
      destruct (matchHere (String c (take k s))) as [t|] eqn:Hm'.
      * apply (matchHere_app _ (drop k s)) in Hm'.
        rewrite sapp_cons, stake_sdrop in Hm'. congruence.
      * apply search_None_iff. exact Hpre.
Qed.

Lemma whileExec_unfold {St : Type} (body : RegExpMatch → St → St)
    (text : string) (re : nat) (st : St) :
  whileExec body text re st =
  match exec text re with
  | (Some m, li) => whileExec body text li (body m st)
  | (None, _) => st
  end.
Proof.
  funelim (whileExec body text re st); rewrite e; reflexivity.
Qed.

(** What a successful [exec] says about the text. *)
Lemma exec_Some (text : string) (re : nat) (m : RegExpMatch) (li : nat) :
  exec text re = (Some m, li) →
  ∃ k, index m = re + k ∧
       fullMatch m = "[[" +:+ linkText m +:+ "]]" ∧
       li = index m + String.length (fullMatch m) ∧
       drop re text = take k (drop re text) +:+ fullMatch m +:+ drop li text ∧
       String.length (take k (drop re text)) = k ∧
       search (take k (drop re text)) 0 = None ∧
       linkText m ≠ "" ∧ noRBracket (linkText m) = true ∧
       re < li ∧ li ≤ String.length text.
Proof.
  unfold exec. destruct (search _ _) as [[i g]|] eqn:Hs; [|discriminate].
  apply search_Some in Hs as (k & -> & Hk & Hpre).
  pose proof (matchHere_length _ _ Hk) as Hlen. rewrite !length_sdrop in Hlen.
  apply matchHere_spec in Hk as (Hg & Hrun & rest & Hrest).
  set (full := "[[" +:+ g +:+ "]]") in *.
  assert (Hfull : String.length full = String.length g + 4).
  { unfold full. rewrite !length_sapp. simpl. lia. }
  assert (Hrest' : drop k (drop re text) = full +:+ rest).
  { rewrite Hrest. unfold full. rewrite !sapp_assoc. reflexivity. }
  assert (Hd : drop (re + k + String.length full) text = rest).
  { rewrite <- !sdrop_sdrop, Hrest'. apply sdrop_sapp_length. }
  assert (Htext : drop re text
                  = take k (drop re text) +:+ full
                    +:+ drop (re + k + String.length full) text).
  { rewrite Hd. rewrite <- (stake_sdrop k (drop re text)) at 1.
    rewrite Hrest'. reflexivity. }
  assert (Htake : String.length (take k (drop re text)) = k).
  { rewrite length_stake, length_sdrop. lia. }
  intros [= <- <-]. exists k. cbn [index fullMatch linkText].
  split; [reflexivity|]. split; [reflexivity|]. split; [reflexivity|].
  split; [exact Htext|]. split; [exact Htake|].
  split; [exact Hpre|]. split; [exact Hg|]. split; [exact Hrun|].
  change (re < re + k + String.length full
          ∧ re + k + String.length full ≤ String.length text).
  rewrite Hfull. lia.
Qed.

Lemma exec_None (text : string) (re li : nat) :
  exec text re = (None, li) → search (drop re text) 0 = None.
Proof.
  unfold exec. destruct (search _ _) as [[i g]|] eqn:Hs; [discriminate|].
  intros _. apply search_None_iff in Hs. exact Hs.
Qed.

(** Induction along the positions that successive [exec] calls reach:
    each successful call moves [lastIndex] forward within the text. *)
Lemma exec_ind (text : string) (P : nat → Prop) :
  (∀ re, (∀ m li, exec text re = (Some m, li) → P li) → P re) →
  ∀ re, P re.
Proof.
  intros Hstep re.
  remember (S (String.length text - re)) as n eqn:Hn.
  assert (Hlt : String.length text - re < n) by lia. clear Hn.
  revert re Hlt. induction n as [|n IH]; intros re Hlt; [lia|].
  apply Hstep. intros m li He.
  apply exec_Some in He as (k & _ & _ & _ & _ & _ & _ & _ & _ & Hre & Hli).
  apply IH. lia.
Qed.

(** The accumulator of the collecting loop is only ever extended. *)
Lemma collect_acc (text : string) (re : nat) (acc : list RegExpMatch) :
  whileExec (fun m acc => acc ++ [m]) text re acc = acc ++ matchesFrom text re.
Proof.
  unfold matchesFrom. revert acc.
  induction re as [re IH] using (exec_ind text). intros acc.
  rewrite (whileExec_unfold _ text re acc), (whileExec_unfold _ text re []).
  destruct (exec text re) as [[m|] li] eqn:He.
  - rewrite (IH m li eq_refl (acc ++ [m])), (IH m li eq_refl ([] ++ [m])).
    rewrite <- app_assoc. reflexivity.
  - rewrite app_nil_r. reflexivity.
Qed.

Lemma matchesFrom_unfold (text : string) (re : nat) :
  matchesFrom text re =
  match exec text re with
  | (Some m, li) => m :: matchesFrom text li
  | (None, _) => []
  end.
Proof.
  unfold matchesFrom at 1. rewrite whileExec_unfold.
  destruct (exec text re) as [[m|] li]; [|reflexivity].
  rewrite collect_acc. reflexivity.
Qed.

(** The loop runs its body once per match, in order. *)
Lemma whileExec_foldl {St : Type} (body : RegExpMatch → St → St)
    (text : string) (re : nat) (st : St) :
  whileExec body text re st = foldl (fun st m => body m st) st (matchesFrom text re).
Proof.
  revert st. induction re as [re IH] using (exec_ind text). intros st.
  rewrite whileExec_unfold, matchesFrom_unfold.
  destruct (exec text re) as [[m|] li] eqn:He; [|reflexivity].
  rewrite (IH m li eq_refl). reflexivity.
Qed.

Lemma matchesFrom_Scan (text : string) (re : nat) :
  Scan text re (matchesFrom text re).
Proof.
  induction re as [re IH] using (exec_ind text).
  rewrite matchesFrom_unfold.
  destruct (exec text re) as [[m|] li] eqn:He.
  - specialize (IH m li eq_refl).
    apply exec_Some in He
      as (k & Hi & Hf & -> & Hd & Hk & Hpre & Hg & Hrun & Hre & Hli).
    eapply scan_step; eauto.
  - apply scan_done. exact (exec_None _ _ _ He).
Qed.

(** An occurrence anywhere in [s] makes the search succeed. *)
Lemma search_complete (s : string) (k : nat) (g : string) :
  matchHere (drop k s) = Some g → search s 0 ≠ None.
Proof.
  revert s. induction k as [|k IH]; intros s Hm.
  - rewrite sdrop_0 in Hm. destruct s; cbn [search]; rewrite Hm; discriminate.
  - destruct s as [|c s]; cbn [search drop] in *.
    + rewrite Hm. discriminate.
    + destruct (matchHere (String c s)); [discriminate|].
      rewrite search_None_iff. apply IH, Hm.
Qed.

End RegexFacts.

(** ** Plain objects *)

Module ObjectFacts.
Import Js JsObject JsFacts.

(** The test [if (slug)] can be made on the rendered text. *)
Lemma truthy_render (v : Value string) : Js.truthy (render v) = JsObject.truthy v.
Proof. destruct v; reflexivity. Qed.

Lemma assoc_Some (key : string) (l : list (string * string)) :
  is_Some (assoc key l) ↔ key ∈ l.*1.
Proof.
  induction l as [|[k v] l IH]; cbn [assoc fmap list_fmap].
  - split; [intros [? H]; discriminate|intros H; inversion H].
  - destruct (decide (k = key)) as [->|Hne].
    + split; [intros _; left|intros _; eexists; reflexivity].
    + rewrite IH. split; [intros H; right; exact H|].
      intros [E|H]%elem_of_cons; [cbn in E; congruence|exact H].
Qed.

Lemma inherited_is_Some {A : Type} (key : string) :
  is_Some (inherited (A := A) key) ↔ key ∈ inheritedKeys.
Proof.
  unfold inherited, inheritedKeys. destruct (decide (key = "__proto__")) as [->|Hne].
  - split; [intros _; left|intros _; eexists; reflexivity].
  - rewrite fmap_is_Some, assoc_Some. split; [intros H; right; exact H|].
    intros [E|H]%elem_of_cons; [contradiction|exact H].
Qed.

(** No inherited value is one that the program assigned. *)
Lemma inherited_foreign {A : Type} (key : string) (a : A) :
  inherited key ≠ Some (Own a).
Proof.
  unfold inherited. destruct (decide (key = "__proto__")); [discriminate|].
  destruct (assoc key prototypeMethods); discriminate.
Qed.

Lemma inherited_None {A : Type} (key : string) :
  inherited (A := A) key = None ↔ key ∉ inheritedKeys.
Proof.
  rewrite <- (inherited_is_Some (A := A)), eq_None_not_Some. reflexivity.
Qed.

(** Two inherited keys only are in lower case. *)
Lemma inheritedKeys_lower (key : string) :
  key ∈ inheritedKeys → toLowerCase key = key →
  key = "constructor" ∨ key = "__proto__".
Proof.
  unfold inheritedKeys. cbn [prototypeMethods fmap list_fmap fst].
  intros Hin Hlow.
  repeat (apply elem_of_cons in Hin as [->|Hin]; [auto; discriminate Hlow|]).
  inversion Hin.
Qed.

Lemma get_own {A : Type} (own : gmap string A) (key : string) (a : A) :
  own !! key = Some a → get own key = Some (Own a).
Proof. unfold get. intros ->. reflexivity. Qed.

Lemma get_missing {A : Type} (own : gmap string A) (key : string) :
  own !! key = None → get own key = inherited key.
Proof. unfold get. intros ->. reflexivity. Qed.

Lemma get_None {A : Type} (own : gmap string A) (key : string) :
  get own key = None ↔ own !! key = None ∧ key ∉ inheritedKeys.
Proof.
  unfold get. destruct (own !! key) as [a|].
  - split; [discriminate|intros [? _]; discriminate].
  - rewrite inherited_None. tauto.
Qed.

Lemma get_Own {A : Type} (own : gmap string A) (key : string) (a : A) :
  get own key = Some (Own a) ↔ own !! key = Some a.
Proof.
  unfold get. destruct (own !! key) as [b|].
  - split; intros [= ->]; reflexivity.
  - split; [intros H; destruct (inherited_foreign _ _ H)|discriminate].
Qed.

(** A read that yields a function or [Object.prototype] found no own
    property. *)
Lemma get_inherited {A : Type} (own : gmap string A) (key : string) (v : Value A) :
  get own key = Some v → (∀ a, v ≠ Own a) →
  own !! key = None ∧ key ∈ inheritedKeys.
Proof.
  unfold get. destruct (own !! key) as [b|].
  - intros [= <-] H. destruct (H b eq_refl).
  - intros H _. split; [reflexivity|].
    apply (inherited_is_Some (A := A)). eauto.
Qed.

(** An assignment, on an object that does not own [__proto__]. *)
Lemma lookup_set (own : gmap string string) (key value k : string) :
  own !! "__proto__" = None →
  set own key value !! k
  = if decide (k = key ∧ key ≠ "__proto__") then Some value else own !! k.
Proof.
  intros Hp. unfold set. destruct (decide (key = "__proto__")) as [->|Hne].
  - rewrite decide_True by auto. rewrite decide_False by tauto. reflexivity.
  - rewrite decide_False by tauto.
    destruct (decide (k = key)) as [->|Hk].
    + rewrite decide_True by auto. apply lookup_insert_eq.
    + rewrite decide_False by tauto. apply lookup_insert_ne. congruence.
Qed.

Lemma set_other (own : gmap string string) (key value : string) :
  key ≠ "__proto__" → set own key value = <[key := value]> own.
Proof. intros Hne. unfold set. rewrite decide_False by tauto. reflexivity. Qed.

(** Assigning one value under a list of keys, in order. *)
Lemma lookup_foldl_set (v : string) (ks : list string)
    (m : gmap string string) (k : string) :
  m !! "__proto__" = None →
  foldl (fun m k => set m k v) m ks !! k
  = if decide (k ∈ ks ∧ k ≠ "__proto__") then Some v else m !! k.
Proof.
  revert m. induction ks as [|a ks IH]; intros m Hp; cbn [foldl].
  - rewrite decide_False by (intros [H _]; inversion H). reflexivity.
  - assert (Hp' : set m a v !! "__proto__" = None).
    { rewrite lookup_set by exact Hp. rewrite decide_False by (intros [-> H]; auto).
      exact Hp. }
    rewrite (IH _ Hp'), lookup_set by exact Hp.
    destruct (decide (k ∈ ks ∧ k ≠ "__proto__")) as [[Hin Hne]|Hnin].
    + rewrite decide_True by (split; [right|]; assumption). reflexivity.
    + destruct (decide (k = a ∧ a ≠ "__proto__")) as [[-> Hne]|Hna].
      * rewrite decide_True by (split; [left|exact Hne]). reflexivity.
      * rewrite decide_False; [reflexivity|].
        intros [[->|Hin]%elem_of_cons Hne]; tauto.
Qed.

End ObjectFacts.

(** ** Paths *)

Module PathFacts.
Import Js Notions SiteNotions IndexNotions JsFacts.
#[local] Arguments String.append !s1 s2 / : simpl nomatch.

Lemma split_nonnil (sep : ascii) (s : string) : split sep s ≠ [].
Proof.
  destruct s as [|c s]; cbn [split]; [discriminate|].
  destruct (decide (c = sep)); [discriminate|].
  destruct (split sep s); discriminate.
Qed.

Lemma split_no_slash (s : string) : hasSlash s = false → split "/" s = [s].
Proof.
  induction s as [|c s IH]; cbn [split hasSlash]; [reflexivity|].
  destruct (decide (c = "/"%char)); [discriminate|].
  intros H. rewrite (IH H). reflexivity.
Qed.

Lemma split_app_sep (sep : ascii) (a b : string) :
  split sep (a +:+ String sep b) = split sep a ++ split sep b.
Proof.
  induction a as [|c a IH].
  - cbn [String.append split]. rewrite decide_True by reflexivity. reflexivity.
  - rewrite sapp_cons. cbn [split].
    destruct (decide (c = sep)); [rewrite IH; reflexivity|].
    rewrite IH. pose proof (split_nonnil sep a) as Hne.
    destruct (split sep a) as [|h t]; [by destruct Hne|reflexivity].
Qed.

Lemma replace_cons (pat rep : string) (x : ascii) (s : string) :
  replace pat rep (String x s)
  = match stripPrefix pat (String x s) with
    | Some rest => rep +:+ rest
    | None => String x (replace pat rep s)
    end.
Proof. reflexivity. Qed.

Lemma stripPrefix_app (q r : string) : stripPrefix q (q +:+ r) = Some r.
Proof.
  induction q as [|y q IH]; [destruct r; reflexivity|].
  rewrite sapp_cons. cbn [stripPrefix]. rewrite decide_True by reflexivity.
  apply IH.
Qed.

Lemma stripPrefix_other (p0 x : ascii) (pat s : string) :
  x ≠ p0 → stripPrefix (String p0 pat) (String x s) = None.
Proof. intros H. cbn [stripPrefix]. rewrite decide_False by congruence. reflexivity. Qed.

(** [replace] finds its first occurrence after a part that does not
    hold the first character of the pattern. *)
Lemma replace_after (p0 : ascii) (pat rep a b : string) :
  contains p0 a = false →
  replace (String p0 pat) rep (a +:+ String p0 pat +:+ b) = a +:+ rep +:+ b.
Proof.
  induction a as [|x a IH]; cbn [contains]; intros Ha.
  - rewrite sapp_nil_l, sapp_cons, replace_cons, <- sapp_cons, stripPrefix_app.
    reflexivity.
  - destruct (decide (x = p0)) as [|Hne]; [discriminate|].
    rewrite !(sapp_cons x a), replace_cons, stripPrefix_other by exact Hne.
    rewrite (IH Ha). reflexivity.
Qed.

Lemma replace_absent (p0 : ascii) (pat rep s : string) :
  contains p0 s = false → replace (String p0 pat) rep s = s.
Proof.
  induction s as [|x s IH]; cbn [contains]; intros Hs; [reflexivity|].
  destruct (decide (x = p0)) as [|Hne]; [discriminate|].
  rewrite replace_cons, stripPrefix_other by exact Hne.
  rewrite (IH Hs). reflexivity.
Qed.

Lemma contains_app (c : ascii) (a b : string) :
  contains c (a +:+ b) = contains c a || contains c b.
Proof.
  induction a as [|x a IH]; [reflexivity|].
  rewrite sapp_cons. cbn [contains]. destruct (decide (x = c)); [reflexivity|exact IH].
Qed.

Lemma contains_slash (s : string) : contains "/" s = hasSlash s.
Proof. induction s as [|x s IH]; [reflexivity|]. cbn. rewrite IH. reflexivity. Qed.

Lemma slug_of_md (a : string) :
  contains "." a = false →
  replace ".md" "" (a +:+ ".md") = a.
Proof.
  intros Ha. rewrite <- (sapp_nil_r (a +:+ ".md")), sapp_assoc.
  rewrite (replace_after "." "md" "" a "" Ha). rewrite sapp_nil_l. apply sapp_nil_r.
Qed.

Lemma rev_app_sapp (a b : string) : String.rev_app a b = String.rev a +:+ b.
Proof.
  unfold String.rev. revert b.
  induction a as [|c a IH]; intros b; cbn [String.rev_app]; [reflexivity|].
  rewrite (IH (String c b)), (IH (String c "")), sapp_assoc. reflexivity.
Qed.

Lemma srev_cons (c : ascii) (a : string) :
  String.rev (String c a) = String.rev a +:+ String c "".
Proof. unfold String.rev at 1. cbn [String.rev_app]. apply rev_app_sapp. Qed.

Lemma srev_sapp (a b : string) : String.rev (a +:+ b) = String.rev b +:+ String.rev a.
Proof.
  induction a as [|c a IH].
  - rewrite sapp_nil_l. symmetry. apply sapp_nil_r.
  - rewrite sapp_cons, !srev_cons, IH, sapp_assoc. reflexivity.
Qed.

Lemma srev_involutive (a : string) : String.rev (String.rev a) = a.
Proof.
  induction a as [|c a IH]; [reflexivity|].
  rewrite srev_cons, srev_sapp, IH. reflexivity.
Qed.

(** Stripping the extension of a path that ends in [.md]. *)
Lemma stripExtension_md (stem : string) : stripExtension (stem +:+ ".md") = stem.
Proof.
  unfold stripExtension. rewrite srev_sapp.
  change (String.rev ".md") with "dm.".
  cbn. apply srev_involutive.
Qed.

(** The segments of a path give the path back, and the path followed
    by text that holds no ['/'] has the same segments but the last,
    which grows. *)
Lemma split_last_app (s : string) :
  ∃ segs seg,
    split "/" s = segs ++ [seg]
    ∧ s = foldr (fun x acc => x +:+ "/" +:+ acc) "" segs +:+ seg
    ∧ ∀ b, hasSlash b = false → split "/" (s +:+ b) = segs ++ [seg +:+ b].
Proof.
  induction s as [|c s (segs & seg & Hs & Hj & Hb)].
  - exists [], "". split; [reflexivity|]. split; [reflexivity|].
    intros b Hno. rewrite sapp_nil_l. apply split_no_slash, Hno.
  - destruct (decide (c = "/"%char)) as [->|Hne].
    + exists ("" :: segs), seg. cbn [split]. rewrite decide_True by reflexivity.
      split; [rewrite Hs; reflexivity|]. split.
      * exact (f_equal (String "/"%char) Hj).
      * intros b Hno. rewrite sapp_cons. cbn [split].
        rewrite decide_True by reflexivity. rewrite (Hb b Hno). reflexivity.
    + destruct segs as [|h t].
      * exists [], (String c seg). cbn [split]. rewrite decide_False by exact Hne.
        rewrite Hs. split; [reflexivity|]. split.
        -- exact (f_equal (String c) Hj).
        -- intros b Hno. rewrite sapp_cons. cbn [split].
           rewrite decide_False by exact Hne. rewrite (Hb b Hno). reflexivity.
      * exists (String c h :: t), seg. cbn [split]. rewrite decide_False by exact Hne.
        rewrite Hs. split; [reflexivity|]. split.
        -- exact (f_equal (String c) Hj).
        -- intros b Hno. rewrite sapp_cons. cbn [split].
           rewrite decide_False by exact Hne. rewrite (Hb b Hno). reflexivity.
Qed.

Lemma hasPart_cons (pat : string) (c : ascii) (s : string) :
  hasPart pat (String c s) = false →
  stripPrefix pat (String c s) = None ∧ hasPart pat s = false.
Proof.
  cbn [hasPart]. destruct (stripPrefix pat (String c s)); [discriminate|]. auto.
Qed.

Lemma hasPart_app_r (pat a b : string) :
  hasPart pat (a +:+ b) = false → hasPart pat b = false.
Proof.
  induction a as [|c a IH]; [rewrite sapp_nil_l; auto|].
  rewrite sapp_cons. intros H. apply hasPart_cons in H as [_ H]. apply IH, H.
Qed.

(** No [.md] begins in a text that is followed by [.md] unless it lies
    within the text. *)
Lemma stripPrefix_md_app (c : ascii) (a : string) :
  stripPrefix ".md" (String c a) = None →
  stripPrefix ".md" (String c (a +:+ ".md")) = None.
Proof.
  cbn [stripPrefix]. destruct (decide ("."%char = c)); [|reflexivity].
  destruct a as [|x a]; [reflexivity|]. rewrite sapp_cons. cbn [stripPrefix].
  destruct (decide ("m"%char = x)); [|reflexivity].
  destruct a as [|y a]; [reflexivity|]. rewrite sapp_cons. cbn [stripPrefix].
  destruct (decide ("d"%char = y)); [|reflexivity].
  destruct a; discriminate.
Qed.

(** Removing the first [.md] of a path strips its extension when the
    path holds no other [.md]. *)
Lemma replace_md_suffix (stem : string) :
  hasPart ".md" stem = false → replace ".md" "" (stem +:+ ".md") = stem.
Proof.
  induction stem as [|c a IH]; [reflexivity|].
  intros H. apply hasPart_cons in H as [Hc Ha].
  rewrite sapp_cons, replace_cons, (stripPrefix_md_app c a Hc), (IH Ha).
  reflexivity.
Qed.

End PathFacts.

(** ** The alias index *)

Module IndexFacts.
Import Js Markdown Notions SiteNotions IndexNotions JsFacts ObjectFacts PathFacts.

(** Creating properties for a list of keys, in order. *)
Lemma lookup_foldl_insert (v : string) (ks : list string)
    (m : gmap string string) (k : string) :
  foldl (fun m k => <[k := v]> m) m ks !! k
  = if decide (k ∈ ks) then Some v else m !! k.
Proof.
  revert m. induction ks as [|a ks IH]; intros m; cbn [foldl].
  - rewrite decide_False by set_solver. reflexivity.
  - rewrite IH. destruct (decide (k ∈ ks)) as [Hin|Hnin].
    + rewrite decide_True by (right; exact Hin). reflexivity.
    + destruct (decide (k = a)) as [->|Hne].
      * rewrite decide_True by left. apply lookup_insert_eq.
      * rewrite decide_False by (intros [?|?]%elem_of_cons; contradiction).
        apply lookup_insert_ne. congruence.
Qed.

Lemma foldl_set_insert (v : string) (ks : list string) (m : gmap string string) :
  "__proto__" ∉ ks →
  foldl (fun m k => JsObject.set m k v) m ks = foldl (fun m k => <[k := v]> m) m ks.
Proof.
  revert m. induction ks as [|a ks IH]; intros m Hno; [reflexivity|]. cbn [foldl].
  rewrite set_other by (intros ->; apply Hno; left).
  apply IH. intros Hin. apply Hno. right. exact Hin.
Qed.

(** The four assignments of the callback, as one pass over [aliases]. *)
Lemma registerFile_aliases (m : gmap string string) (f : NoteData) :
  registerFile m f = foldl (fun m k => JsObject.set m k (slug f)) m (aliases f).
Proof.
  unfold registerFile, aliases.
  destruct ((fun f0 => replace ".md" "" f0) <$> pop (split "/" (path f))) as [fn|];
    [destruct (truthy fn)|]; reflexivity.
Qed.

Lemma registerFile_lookup (m : gmap string string) (f : NoteData) (k : string) :
  m !! "__proto__" = None →
  registerFile m f !! k
  = if decide (k ∈ aliases f ∧ k ≠ "__proto__") then Some (slug f) else m !! k.
Proof. intros Hp. rewrite registerFile_aliases. apply lookup_foldl_set, Hp. Qed.

Lemma getTitleToSlugMap_snoc (files : list NoteData) (f : NoteData) :
  getTitleToSlugMap (files ++ [f]) = registerFile (getTitleToSlugMap files) f.
Proof. unfold getTitleToSlugMap. rewrite foldl_app. reflexivity. Qed.

(** The index never owns the key [__proto__]. *)
Lemma getTitleToSlugMap_proto (files : list NoteData) :
  getTitleToSlugMap files !! "__proto__" = None.
Proof.
  induction files as [|f files IH] using rev_ind; [reflexivity|].
  rewrite getTitleToSlugMap_snoc, registerFile_lookup by exact IH.
  rewrite decide_False by (intros [_ H]; apply H; reflexivity). exact IH.
Qed.

(** Reading the own properties of the index: a key other than
    [__proto__] maps to the slug of the last document that registers
    it. *)
Lemma getTitleToSlugMap_lookup (files : list NoteData) (k : string) :
  k ≠ "__proto__" →
  getTitleToSlugMap files !! k = slug <$> lastWithAlias k files.
Proof.
  intros Hk. unfold lastWithAlias.
  induction files as [|f files IH] using rev_ind; [reflexivity|].
  rewrite getTitleToSlugMap_snoc, registerFile_lookup by apply getTitleToSlugMap_proto.
  rewrite filter_app, filter_cons, filter_nil.
  destruct (decide (k ∈ aliases f)) as [Hin|Hnin].
  - rewrite decide_True by auto. rewrite last_snoc. reflexivity.
  - rewrite decide_False by tauto. rewrite app_nil_r. exact IH.
Qed.

Lemma slug_in_aliases (f : NoteData) : slug f ∈ aliases f.
Proof. unfold aliases. set_solver. Qed.

Lemma lastWithAlias_app_r (k : string) (pre post : list NoteData) (d : NoteData) :
  k ∈ aliases d → (∀ f, f ∈ post → k ∉ aliases f) →
  lastWithAlias k (pre ++ d :: post) = Some d.
Proof.
  intros Hd Hpost. unfold lastWithAlias.
  rewrite filter_app, filter_cons, decide_True by exact Hd.
  assert (Hnil : filter (fun f => k ∈ aliases f) post = []).
  { clear -Hpost. induction post as [|p post IH]; [reflexivity|].
    rewrite filter_cons, decide_False by (apply Hpost; left).
    apply IH. intros f Hf. apply Hpost. right. exact Hf. }
  rewrite Hnil. apply last_snoc.
Qed.

Lemma lastWithAlias_None (k : string) (files : list NoteData) :
  (∀ f, f ∈ files → k ∉ aliases f) → lastWithAlias k files = None.
Proof.
  intros Hnone. unfold lastWithAlias.
  destruct (last _) as [f|] eqn:Hl; [|reflexivity].
  apply last_Some_elem_of, list_elem_of_filter in Hl as [Hk Hf].
  destruct (Hnone f Hf Hk).
Qed.

(** *** The lookup of the rewriter *)

Lemma resolveSlug_own (idx : gmap string string) (g s : string) :
  idx !! toLowerCase g = Some s → resolveSlug idx g = Some s.
Proof. intros H. unfold resolveSlug. rewrite (get_own _ _ _ H). reflexivity. Qed.

(** A lower-cased text reaches [Object.prototype] under two keys
    only. *)
Lemma inherited_lower (g : string) :
  toLowerCase g ≠ "constructor" → toLowerCase g ≠ "__proto__" →
  JsObject.inherited (A := string) (toLowerCase g) = None.
Proof.
  intros Hc Hp. apply inherited_None. intros Hin.
  destruct (inheritedKeys_lower _ Hin (toLowerCase_idemp g)); contradiction.
Qed.

Lemma resolveSlug_plain (idx : gmap string string) (g : string) :
  toLowerCase g ≠ "constructor" → toLowerCase g ≠ "__proto__" →
  resolveSlug idx g = idx !! toLowerCase g.
Proof.
  intros Hc Hp. unfold resolveSlug, JsObject.get.
  destruct (idx !! toLowerCase g) as [s|]; [reflexivity|].
  rewrite (inherited_lower g Hc Hp). reflexivity.
Qed.

(** What the lookup can yield: an own value, or the text of one of
    the two inherited values. *)
Lemma resolveSlug_Some (idx : gmap string string) (g s : string) :
  resolveSlug idx g = Some s →
  idx !! toLowerCase g = Some s
  ∨ (idx !! toLowerCase g = None ∧ toLowerCase g = "constructor"
     ∧ s = "function Object() { [native code] }")
  ∨ (idx !! toLowerCase g = None ∧ toLowerCase g = "__proto__"
     ∧ s = "[object Object]").
Proof.
  unfold resolveSlug, JsObject.get.
  destruct (idx !! toLowerCase g) as [v|] eqn:Hv; [intros [= <-]; left; reflexivity|].
  destruct (decide (toLowerCase g = "constructor")) as [Hc|Hc].
  { rewrite Hc. intros [= <-]. right. left. auto. }
  destruct (decide (toLowerCase g = "__proto__")) as [Hp|Hp].
  { rewrite Hp. intros [= <-]. right. right. auto. }
  rewrite (inherited_lower g Hc Hp). discriminate.
Qed.

(** *** Documents on which the code and the specification agree *)

Lemma regular_aliases (f : NoteData) : regular f → aliases f = lowerAliases f.
Proof.
  intros (_ & Hlow & (stem & Hpath & Hmd & Hseg) & _).
  destruct (split_last_app stem) as (segs & seg & Hs & Hj & Hb).
  assert (Hfin : finalSegment stem = seg).
  { unfold finalSegment, pop. rewrite Hs, last_snoc. reflexivity. }
  rewrite Hfin in Hseg.
  assert (Hsegmd : hasPart ".md" seg = false).
  { rewrite Hj in Hmd. exact (hasPart_app_r _ _ _ Hmd). }
  assert (Hpop : pop (split "/" (path f)) = Some (seg +:+ ".md")).
  { unfold pop. rewrite Hpath, (Hb ".md" eq_refl), last_snoc. reflexivity. }
  unfold aliases, lowerAliases, finalSegment.
  rewrite Hpop. cbn [fmap option_fmap option_map default from_option]. unfold id.
  rewrite Hpath, (replace_md_suffix stem Hmd), (replace_md_suffix seg Hsegmd).
  rewrite !stripExtension_md, Hlow.
  apply truthy_true in Hseg. rewrite Hseg. reflexivity.
Qed.

Lemma registerFile_regular (m : gmap string string) (f : NoteData) :
  regular f →
  registerFile m f = foldl (fun m k => <[k := slug f]> m) m (lowerAliases f).
Proof.
  intros Hreg. rewrite registerFile_aliases, (regular_aliases f Hreg).
  apply foldl_set_insert. exact (proj2 (proj2 (proj2 Hreg))).
Qed.

Lemma lookup_lowerIndex (files : list NoteData) (k : string) :
  lowerIndex files !! k = slug <$> lastWithLowerAlias k files.
Proof.
  unfold lowerIndex, lastWithLowerAlias.
  induction files as [|f files IH] using rev_ind; [reflexivity|].
  rewrite foldl_app. cbn [foldl].
  rewrite lookup_foldl_insert, filter_app, filter_cons, filter_nil.
  destruct (decide (k ∈ lowerAliases f)) as [Hin|Hnin].
  - rewrite last_snoc. reflexivity.
  - rewrite app_nil_r. exact IH.
Qed.

End IndexFacts.

Module AliasIndex.
Import Js Markdown Notions Samples IndexNotions IndexFacts.

(** C3 as stated fails: with aliases lower-cased and trimmed, and the
    extension stripped, the note [tokyo.md] titled [" Tokyo Trip "] would
    be registered under ["tokyo trip"]; the builder registers the
    untrimmed [" tokyo trip "]. *)
Lemma index_differs_from_trimmed_spec :
  getTitleToSlugMap paddedTitleFiles !! "tokyo trip" = None ∧
  specIndex paddedTitleFiles !! "tokyo trip" = Some "tokyo" ∧
  getTitleToSlugMap paddedTitleFiles ≠ specIndex paddedTitleFiles.
Proof.
  assert (H1 : getTitleToSlugMap paddedTitleFiles !! "tokyo trip" = None)
    by (vm_compute; reflexivity).
  assert (H2 : specIndex paddedTitleFiles !! "tokyo trip" = Some "tokyo")
    by (vm_compute; reflexivity).
  split; [exact H1|]. split; [exact H2|].
  intros E. rewrite E, H2 in H1. discriminate.
Qed.

(** C3, amended: normalization is lower-casing, without trimming.  For
    every ordered list of documents (each with an id in lower-case
    ASCII, a path that ends in the extension [.md] and holds no other
    [.md], a file name that is more than the extension, and no alias
    [__proto__]), the builder registers per document, in scan order
    and each assignment overwriting any earlier one for the same key,
    exactly the lower-cased title, id, path without extension and final
    path segment without extension: the index is the one so described,
    and a key reads as the id of the last document that has it among
    these four aliases, or is absent when no document has it. *)
Theorem index_registers_aliases (files : list NoteData) :
  Forall regular files →
  getTitleToSlugMap files = lowerIndex files
  ∧ (∀ f, getTitleToSlugMap (files ++ [f]) = registerFile (getTitleToSlugMap files) f)
  ∧ ∀ k, getTitleToSlugMap files !! k = slug <$> lastWithLowerAlias k files.
Proof.
  intros Hreg.
  assert (Heq : getTitleToSlugMap files = lowerIndex files).
  { unfold getTitleToSlugMap, lowerIndex. generalize (∅ : gmap string string).
    induction Hreg as [|f files Hf _ IH]; intros m; [reflexivity|].
    cbn [foldl]. rewrite (registerFile_regular m f Hf). apply IH. }
  split; [exact Heq|]. split; [intros f; apply getTitleToSlugMap_snoc|].
  intros k. rewrite Heq. apply lookup_lowerIndex.
Qed.

Lemma index_registers_aliases_guide :
  getTitleToSlugMap guideFiles = lowerIndex guideFiles
  ∧ getTitleToSlugMap guideFiles !! "field notes" = Some "notes-guide".
Proof.
  destruct (index_registers_aliases guideFiles) as (Heq & _ & Hk).
  - repeat constructor; try (vm_compute; reflexivity);
      try (apply (bool_decide_unpack _); vm_compute; exact I).
    + exists "guide". repeat split; try discriminate; vm_compute; reflexivity.
    + exists "notes/guide". repeat split; try discriminate; vm_compute; reflexivity.
  - split; [exact Heq|]. rewrite Hk. vm_compute. reflexivity.
Defined.

(** C4 fails on the code for the key [__proto__]: the two notes [a.md]
    and [b.md] are both titled [__proto__], so both have that alias,
    yet the index holds no such key (either assignment is taken by the
    setter of [Object.prototype] and ignored).  The shared alias maps to
    the id of neither note: reading it yields [Object.prototype], and
    the token [[[__proto__]]] becomes a link to [/[object Object]]. *)
Theorem proto_alias_is_lost :
  Forall (fun f => "__proto__" ∈ aliases f) protoFiles
  ∧ slug <$> protoFiles = ["a"; "b"]
  ∧ getTitleToSlugMap protoFiles !! "__proto__" = None
  ∧ resolveSlug (getTitleToSlugMap protoFiles) "__proto__" = Some "[object Object]"
  ∧ linkNode (getTitleToSlugMap protoFiles) "__proto__"
    = Link "/[object Object]" [Text "__proto__" None].
Proof.
  split; [repeat constructor; apply (bool_decide_unpack _); vm_compute; exact I|].
  repeat split; vm_compute; reflexivity.
Qed.

(** Last write wins, for every key but [__proto__]: when two documents
    register the same key, the index maps the key to the id of the one
    scanned later (here [d2], no document after it registering the
    key), and every token that reads as the key in lower case resolves
    to that id; building is a function of the ordered input, so no
    collision raises an error and a repeated build over the same order
    gives the same index. *)
Theorem last_write_wins (pre mid post : list NoteData) (d1 d2 : NoteData) (k : string) :
  k ∈ aliases d1 → k ∈ aliases d2 → (∀ f, f ∈ post → k ∉ aliases f) →
  k ≠ "__proto__" →
  getTitleToSlugMap (pre ++ d1 :: mid ++ d2 :: post) !! k = Some (slug d2)
  ∧ (∀ g, toLowerCase g = k →
       resolveSlug (getTitleToSlugMap (pre ++ d1 :: mid ++ d2 :: post)) g
       = Some (slug d2))
  ∧ ∀ files', files' = pre ++ d1 :: mid ++ d2 :: post →
      getTitleToSlugMap files' = getTitleToSlugMap (pre ++ d1 :: mid ++ d2 :: post).
Proof.
  intros _ H2 Hpost Hk.
  assert (Hown : getTitleToSlugMap (pre ++ d1 :: mid ++ d2 :: post) !! k
                 = Some (slug d2)).
  { rewrite getTitleToSlugMap_lookup by exact Hk.
    replace (pre ++ d1 :: mid ++ d2 :: post) with ((pre ++ d1 :: mid) ++ d2 :: post)
      by (rewrite <- app_assoc; reflexivity).
    rewrite (lastWithAlias_app_r _ _ _ _ H2 Hpost). reflexivity. }
  split; [exact Hown|]. split.
  - intros g Hg. apply resolveSlug_own. rewrite Hg. exact Hown.
  - intros files' ->. reflexivity.
Qed.

Lemma last_write_wins_guide :
  getTitleToSlugMap guideFiles !! "guide" = Some "notes-guide".
Proof.
  refine (proj1 (last_write_wins [] [] [] guideRoot guideNested "guide" _ _ _ _)).
  - apply (bool_decide_unpack _). vm_compute. exact I.
  - apply (bool_decide_unpack _). vm_compute. exact I.
  - intros f Hf. inversion Hf.
  - discriminate.
Defined.

(** C7 as stated fails: [guide.md] has the id ["guide"], and the file
    name of [notes/guide.md], scanned after it, registers the same key;
    looking the id up gives the other document. *)
Lemma self_resolution_overwritten :
  guideRoot ∈ guideFiles ∧ slug guideRoot = "guide" ∧
  getTitleToSlugMap guideFiles !! slug guideRoot = Some "notes-guide" ∧
  resolveSlug (getTitleToSlugMap guideFiles) (slug guideRoot) = Some "notes-guide" ∧
  ¬ (∀ d, d ∈ guideFiles →
       resolveSlug (getTitleToSlugMap guideFiles) (slug d) = Some (slug d)).
Proof.
  assert (H : getTitleToSlugMap guideFiles !! slug guideRoot = Some "notes-guide")
    by (vm_compute; reflexivity).
  assert (Hr : resolveSlug (getTitleToSlugMap guideFiles) (slug guideRoot)
               = Some "notes-guide")
    by (vm_compute; reflexivity).
  split; [left|]. split; [reflexivity|]. split; [exact H|]. split; [exact Hr|].
  intros Hall. specialize (Hall guideRoot ltac:(left)).
  rewrite Hr in Hall. discriminate.
Qed.

(** C7, amended: for every document of the input whose id is written
    in lower-case ASCII and is not [__proto__], the index has the
    document's own id as a key; looking the id up resolves to the id of
    the last document that registers it, which is the document itself
    whenever no document scanned after it has that key among its
    aliases. *)
Theorem own_id_is_key (files : list NoteData) (d : NoteData) :
  d ∈ files →
  isAscii (slug d) = true → toLowerCase (slug d) = slug d → slug d ≠ "__proto__" →
  is_Some (getTitleToSlugMap files !! slug d)
  ∧ resolveSlug (getTitleToSlugMap files) (slug d)
    = slug <$> lastWithAlias (slug d) files
  ∧ ∀ pre post, files = pre ++ d :: post →
      (∀ f, f ∈ post → slug d ∉ aliases f) →
      resolveSlug (getTitleToSlugMap files) (slug d) = Some (slug d).
Proof.
  intros Hd _ Hlow Hne.
  assert (Hown : getTitleToSlugMap files !! slug d
                 = slug <$> lastWithAlias (slug d) files)
    by (apply getTitleToSlugMap_lookup, Hne).
  assert (Hsome : is_Some (getTitleToSlugMap files !! slug d)).
  { rewrite Hown. unfold lastWithAlias.
    rewrite fmap_is_Some, last_is_Some. intros Hf.
    assert (Hin : d ∈ filter (fun f => slug d ∈ aliases f) files)
      by (apply list_elem_of_filter; split; [apply slug_in_aliases|exact Hd]).
    rewrite Hf in Hin. inversion Hin. }
  assert (Hres : resolveSlug (getTitleToSlugMap files) (slug d)
                 = slug <$> lastWithAlias (slug d) files).
  { destruct Hsome as [s Hs]. rewrite <- Hown, Hs.
    apply resolveSlug_own. rewrite Hlow. exact Hs. }
  split; [exact Hsome|]. split; [exact Hres|].
  intros pre post -> Hpost.
  rewrite Hres, (lastWithAlias_app_r _ _ _ _ (slug_in_aliases d) Hpost).
  reflexivity.
Qed.

Lemma own_id_is_key_guide :
  is_Some (getTitleToSlugMap guideFiles !! slug guideNested)
  ∧ resolveSlug (getTitleToSlugMap guideFiles) (slug guideNested)
    = Some (slug guideNested).
Proof.
  destruct (own_id_is_key guideFiles guideNested) as (H1 & _ & H2).
  - right. left.
  - reflexivity.
  - reflexivity.
  - discriminate.
  - split; [exact H1|].
    apply (H2 [guideRoot] []); [reflexivity|].
    intros f Hf. inversion Hf.
Defined.

End AliasIndex.

(** ** The visitor *)

Module RewriterFacts.
Import Js LinkRegex Markdown Notions JsFacts RegexFacts.
#[local] Arguments String.append !s1 s2 / : simpl nomatch.

Lemma hasLinkToken_false (text : string) :
  hasLinkToken text = false ↔ search text 0 = None.
Proof.
  unfold hasLinkToken, test, exec. rewrite sdrop_0.
  destruct (search text 0) as [[i g]|]; simpl; split; congruence.
Qed.

Lemma hasLinkToken_true (text : string) :
  hasLinkToken text = true ↔ matchAll text ≠ [].
Proof.
  unfold hasLinkToken, test, matchAll. rewrite matchesFrom_unfold.
  destruct (exec text 0) as [[m|] li]; simpl; split; congruence.
Qed.

(** A text holds an occurrence exactly when it has a part of the form
    [[[g]]] with [g] non-empty and free of [']']. *)
Lemma hasLinkToken_spec (text : string) :
  hasLinkToken text = true ↔
  ∃ a g b, text = a +:+ "[[" +:+ g +:+ "]]" +:+ b ∧ g ≠ "" ∧ noRBracket g = true.
Proof.
  split.
  - intros Hhas. destruct (search text 0) as [[i g]|] eqn:Hs.
    + apply search_Some in Hs as (k & _ & Hm & _).
      apply matchHere_spec in Hm as (Hg & Hrun & rest & Hrest).
      exists (take k text), g, rest. split; [|auto].
      rewrite <- Hrest. symmetry. apply stake_sdrop.
    + apply hasLinkToken_false in Hs. congruence.
  - intros (a & g & b & -> & Hg & Hrun).
    destruct (hasLinkToken (a +:+ "[[" +:+ g +:+ "]]" +:+ b)) eqn:Hhas; [reflexivity|].
    apply hasLinkToken_false in Hhas. exfalso.
    apply (search_complete (a +:+ "[[" +:+ g +:+ "]]" +:+ b) (String.length a) g);
      [|exact Hhas].
    rewrite sdrop_sapp_length. apply matchHere_spec. eauto.
Qed.

Section WithIndex.
Context (idx : gmap string string).

Lemma linkNode_cases (g : string) :
  (∃ slug, resolveSlug idx g = Some slug ∧ truthy slug = true ∧
           linkNode idx g = Link ("/" +:+ slug) [Text g None])
  ∨ ((resolveSlug idx g = None ∨ resolveSlug idx g = Some "") ∧
     linkNode idx g = Text g (Some brokenLinkData)).
Proof.
  unfold linkNode. destruct (resolveSlug idx g) as [slug|]; [|right; auto].
  destruct (truthy slug) eqn:Ht; [left; eauto|right].
  split; [|reflexivity]. right. f_equal.
  unfold truthy in Ht. destruct (String.eqb_spec slug ""); [assumption|discriminate].
Qed.

Lemma isLiteral_linkNode (g : string) :
  isLiteral (linkNode idx g) = false.
Proof.
  destruct (linkNode_cases g) as [(slug & _ & _ & ->)|[_ ->]]; reflexivity.
Qed.

Lemma textContent_linkNode (g : string) :
  textContent (linkNode idx g) = g.
Proof.
  destruct (linkNode_cases g) as [(slug & _ & _ & ->)|[_ ->]]; simpl;
    [apply sapp_nil_r|reflexivity].
Qed.

Lemma sourceText_linkNode (g : string) :
  sourceText (linkNode idx g) = "[[" +:+ g +:+ "]]".
Proof. unfold sourceText. rewrite isLiteral_linkNode, textContent_linkNode. reflexivity. Qed.

(** The loop over the matches found from [re] on: the nodes it pushes
    spell the text from [re] to the final [lastIndex]. *)
Lemma loop_scan (text : string)
    (re : nat) (ms : list RegExpMatch) :
  Scan text re ms → ∀ st, lastIndex st = re →
  ∃ nodes,
    newNodes (foldl (fun st m => loopBody idx text m st) st ms) = newNodes st ++ nodes
    ∧ join (map sourceText nodes)
      +:+ drop (lastIndex (foldl (fun st m => loopBody idx text m st) st ms)) text
      = drop re text
    ∧ search (drop (lastIndex (foldl (fun st m => loopBody idx text m st) st ms)) text) 0
      = None
    ∧ Forall (Piece idx) nodes
    ∧ filter (fun n => isLiteral n = false) nodes
      = map (fun m => linkNode idx (linkText m)) ms.
Proof.
  induction 1 as [re Hnone|re k m ms Hi Hf Hd Hk Hpre Hg Hrun Hle Hscan IH];
    intros st Hst.
  - exists []. cbn [foldl]. rewrite app_nil_r, Hst. repeat split; auto.
  - cbn [foldl].
    set (st1 := loopBody idx text m st).
    destruct (IH st1 eq_refl) as (nodes' & Hn & Hj & Hs & Hp & Hfl).
    set (lit := take k (drop re text)) in *.
    assert (Hslice : slice text (lastIndex st) (index m) = lit).
    { rewrite Hst, Hi. apply slice_drop. }
    set (pre := if decide (0 < k) then [Text lit None] else []).
    assert (Hnew : newNodes st1 = newNodes st ++ pre ++ [linkNode idx (linkText m)]).
    { unfold st1, loopBody, pre. cbn [newNodes]. rewrite Hslice, Hst, Hi.
      destruct (decide (re < re + k)), (decide (0 < k)); try lia;
        rewrite <- ?app_assoc; reflexivity. }
    assert (Hpre_src : join (map sourceText pre) = lit).
    { unfold pre. destruct (decide (0 < k)); simpl.
      - apply sapp_nil_r.
      - symmetry. apply slength_0. unfold lit in *. lia. }
    exists (pre ++ [linkNode idx (linkText m)] ++ nodes').
    split; [rewrite Hn, Hnew, <- !app_assoc; reflexivity|].
    split.
    { rewrite !map_app, !join_app, Hpre_src. cbn [map]. 
      change (join [sourceText (linkNode idx (linkText m))])
        with (sourceText (linkNode idx (linkText m)) +:+ "").
      rewrite sapp_nil_r, sourceText_linkNode, <- Hf, !sapp_assoc, Hj.
      symmetry. exact Hd. }
    split; [exact Hs|]. split.
    { apply Forall_app. split; [|constructor; [constructor; assumption|exact Hp]].
      unfold pre. destruct (decide (0 < k)); [|constructor].
      constructor; [|constructor]. constructor.
      - intros E. rewrite E in Hk. simpl in Hk. lia.
      - apply hasLinkToken_false. exact Hpre. }
    rewrite !filter_app, filter_cons, decide_True by apply isLiteral_linkNode.
    rewrite filter_nil, Hfl.
    assert (Hpre_f : filter (fun n => isLiteral n = false) pre = []).
    { unfold pre. destruct (decide (0 < k)); [|reflexivity].
      rewrite filter_cons, decide_False by (simpl; discriminate). reflexivity. }
    rewrite Hpre_f. reflexivity.
Qed.

(** The visitor replaces a text node exactly when it holds an
    occurrence and has a parent. *)
Lemma visitor_None (text : string) (hasParent : bool) :
  visitor idx text hasParent = None ↔ hasLinkToken text = false ∨ hasParent = false.
Proof.
  unfold visitor, hasLinkToken. destruct (test text 0) as [found li]. simpl.
  destruct found, hasParent; simpl; split; intros H; try reflexivity;
    try discriminate; auto; destruct H; discriminate.
Qed.

(** What the visitor splices in for a text node that holds an
    occurrence. *)
Lemma visitor_Some (text : string) :
  hasLinkToken text = true →
  ∃ nodes, visitor idx text true = Some nodes
    ∧ join (map sourceText nodes) = text
    ∧ Forall (Piece idx) nodes
    ∧ filter (fun n => isLiteral n = false) nodes
      = map (fun m => linkNode idx (linkText m)) (matchAll text).
Proof.
  intros Hhas. unfold visitor. unfold hasLinkToken in Hhas.
  destruct (test text 0) as [found li]. simpl in Hhas. subst found. simpl.
  rewrite whileExec_foldl.
  destruct (loop_scan text 0 _ (matchesFrom_Scan text 0)
              {| lastIndex := 0; newNodes := [] |} eq_refl)
    as (nodes & Hn & Hj & Hs & Hp & Hf).
  set (st := foldl _ _ _) in *. rewrite Hn. cbn [newNodes app].
  rewrite sdrop_0 in Hj.
  destruct (decide (lastIndex st < String.length text)) as [Hlt|Hge].
  - exists (nodes ++ [Text (sliceFrom text (lastIndex st)) None]).
    split; [reflexivity|]. split; [|split].
    + rewrite map_app, join_app. simpl. rewrite sapp_nil_r. exact Hj.
    + apply Forall_app. split; [exact Hp|]. constructor; [|constructor].
      constructor; [apply sdrop_nonempty; exact Hlt|].
      apply hasLinkToken_false. exact Hs.
    + rewrite filter_app, filter_cons, decide_False by (simpl; discriminate).
      rewrite filter_nil, app_nil_r. exact Hf.
  - exists nodes. split; [reflexivity|]. split; [|split]; [|exact Hp|exact Hf].
    rewrite sdrop_all in Hj by lia. rewrite sapp_nil_r in Hj. exact Hj.
Qed.

End WithIndex.

End RewriterFacts.

(** ** The traversal *)

Module TreeFacts.
Import Js LinkRegex Markdown Notions JsFacts RegexFacts RewriterFacts.
#[local] Arguments String.append !s1 s2 / : simpl nomatch.

(** Induction on trees, with the hypothesis for every child. *)
Lemma Node_children_ind (P : Node → Prop) :
  (∀ v d, P (Text v d)) →
  (∀ url children, Forall P children → P (Link url children)) →
  (∀ ty children, Forall P children → P (Parent ty children)) →
  (∀ ty v, P (Literal ty v)) →
  ∀ n, P n.
Proof.
  intros HT HL HP HV.
  fix IH 1. intros [v d|url children|ty children|ty v].
  - apply HT.
  - apply HL. induction children as [|c children IHc]; constructor; [apply IH|exact IHc].
  - apply HP. induction children as [|c children IHc]; constructor; [apply IH|exact IHc].
  - apply HV.
Qed.

Lemma flat_map_fixed (f : Node → list Node) (children : list Node) :
  Forall (fun c => f c = [c]) children → flat_map f children = children.
Proof.
  induction 1 as [|c children Hc _ IH]; simpl; [reflexivity|].
  rewrite Hc, IH. reflexivity.
Qed.

(** The traversal changes nothing below a node free of link tokens. *)
Lemma visitChild_fixed (idx : gmap string string) (n : Node) :
  noLinkToken n = true → visitChild idx n = [n].
Proof.
  induction n as [v d|url children IH|ty children IH|ty v] using Node_children_ind;
    cbn [noLinkToken visitChild]; intros Hn.
  - apply negb_true_iff in Hn.
    assert (Hv : visitor idx v true = None) by (apply visitor_None; auto).
    rewrite Hv. reflexivity.
  - f_equal. f_equal. apply flat_map_fixed.
    rewrite forallb_forall in Hn. rewrite Forall_forall in IH |- *.
    intros c Hc. apply IH; [exact Hc|]. apply Hn, list_elem_of_In, Hc.
  - f_equal. f_equal. apply flat_map_fixed.
    rewrite forallb_forall in Hn. rewrite Forall_forall in IH |- *.
    intros c Hc. apply IH; [exact Hc|]. apply Hn, list_elem_of_In, Hc.
  - reflexivity.
Qed.

Lemma noRBracket_noLinkToken (g : string) :
  noRBracket g = true → hasLinkToken g = false.
Proof. intros H. apply hasLinkToken_false, search_noRBracket, H. Qed.

(** The nodes that the visitor builds hold no link token themselves:
    the traversal, which goes on with the nodes spliced in after the
    first one, leaves them as they are. *)
Lemma Piece_noLinkToken (idx : gmap string string) (n : Node) :
  Piece idx n → noLinkToken n = true.
Proof.
  intros [v Hv Hno|g Hg Hrun].
  - simpl. rewrite Hno. reflexivity.
  - apply noRBracket_noLinkToken in Hrun.
    destruct (linkNode_cases idx g) as [(slug & _ & _ & ->)|[_ ->]]; simpl;
      rewrite Hrun; reflexivity.
Qed.

Lemma hasDoubleClose_app (a b : string) :
  hasDoubleClose (a +:+ "]]" +:+ b) = true.
Proof.
  induction a as [|c a IH].
  - reflexivity.
  - rewrite sapp_cons. cbn [hasDoubleClose].
    destruct (stripPrefix "]]" (String c (a +:+ "]]" +:+ b))); [reflexivity|exact IH].
Qed.

Lemma hasDoubleClose_drop (k : nat) (s : string) :
  hasDoubleClose (drop k s) = true → hasDoubleClose s = true.
Proof.
  revert s. induction k as [|k IH]; intros s; [exact id|].
  destruct s as [|c s]; [exact id|]. cbn [drop hasDoubleClose].
  intros H. destruct (stripPrefix "]]" (String c s)); [reflexivity|apply IH, H].
Qed.

(** Without a closing []]] there is no occurrence: an unterminated
    [[[] stays literal text. *)
Lemma no_close_no_token (text : string) :
  hasDoubleClose text = false → hasLinkToken text = false.
Proof.
  intros Hno. apply hasLinkToken_false.
  destruct (search text 0) as [[i g]|] eqn:Hs; [|reflexivity].
  apply search_Some in Hs as (k & _ & Hm & _).
  apply matchHere_spec in Hm as (_ & _ & rest & Hrest).
  assert (H : hasDoubleClose (drop k text) = true).
  { rewrite Hrest.
    replace ("[[" +:+ g +:+ "]]" +:+ rest) with (("[[" +:+ g) +:+ "]]" +:+ rest)
      by (rewrite !sapp_assoc; reflexivity).
    apply hasDoubleClose_app. }
  apply hasDoubleClose_drop in H. congruence.
Qed.

End TreeFacts.

(** ** The page's rewrite and the plugin *)

Module PageFacts.
Import Js LinkRegex Markdown Page Notions JsFacts RegexFacts RewriterFacts.
#[local] Arguments String.append !s1 s2 / : simpl nomatch.

Lemma replacer_linkNode (idx : gmap string string) (g : string) :
  replacer idx g = markdownOf (linkNode idx g).
Proof.
  unfold replacer, linkNode. destruct (resolveSlug idx g) as [slug|]; [|reflexivity].
  destruct (truthy slug); [|reflexivity].
  simpl. rewrite sapp_nil_r. reflexivity.
Qed.

(** Both loops over the same matches, side by side: the page
    accumulates the text that stands for the nodes pushed by the
    visitor. *)
Lemma replace_loop (idx : gmap string string) (text : string)
    (re : nat) (ms : list RegExpMatch) :
  Scan text re ms →
  ∀ (st : LoopState) (rs : ReplaceState),
  lastIndex st = re → nextSourcePosition rs = re →
  ∃ nodes,
    newNodes (foldl (fun st m => loopBody idx text m st) st ms) = newNodes st ++ nodes
    ∧ accumulatedResult (foldl (fun rs m => replaceStep (replacer idx) text m rs) rs ms)
      = accumulatedResult rs +:+ join (map markdownOf nodes)
    ∧ nextSourcePosition (foldl (fun rs m => replaceStep (replacer idx) text m rs) rs ms)
      = lastIndex (foldl (fun st m => loopBody idx text m st) st ms).
Proof.
  induction 1 as [re _|re k m ms Hi _ _ _ _ _ _ _ _ IH]; intros st rs Hst Hrs;
    cbn [foldl].
  - exists []. rewrite app_nil_r. simpl. rewrite sapp_nil_r. split; [|split]; congruence.
  - assert (Hstep : replaceStep (replacer idx) text m rs
                    = {| nextSourcePosition := index m + String.length (fullMatch m);
                         accumulatedResult :=
                           accumulatedResult rs
                           +:+ slice text (nextSourcePosition rs) (index m)
                           +:+ replacer idx (linkText m) |}).
    { unfold replaceStep. rewrite decide_True by lia. reflexivity. }
    rewrite Hstep.
    destruct (IH (loopBody idx text m st)
                {| nextSourcePosition := index m + String.length (fullMatch m);
                   accumulatedResult :=
                     accumulatedResult rs
                     +:+ slice text (nextSourcePosition rs) (index m)
                     +:+ replacer idx (linkText m) |} eq_refl eq_refl)
      as (nodes' & Hn & Ha & Hp).
    set (pre := if decide (lastIndex st < index m)
                then [Text (slice text (lastIndex st) (index m)) None] else []).
    exists (pre ++ [linkNode idx (linkText m)] ++ nodes').
    split; [|split; [|exact Hp]].
    + rewrite Hn. unfold loopBody, pre. cbn [newNodes].
      destruct (decide (lastIndex st < index m)); rewrite <- !app_assoc; reflexivity.
    + rewrite Ha. cbn [accumulatedResult].
      rewrite !map_app, !join_app, Hrs, <- Hst, !sapp_assoc. f_equal.
      assert (Hpre : join (map markdownOf pre) = slice text (lastIndex st) (index m)).
      { unfold pre. destruct (decide (lastIndex st < index m)); simpl.
        - apply sapp_nil_r.
        - unfold slice. replace (index m - lastIndex st) with 0 by lia. reflexivity. }
      rewrite Hpre. f_equal. cbn [map].
      change (join [markdownOf (linkNode idx (linkText m))])
        with (markdownOf (linkNode idx (linkText m)) +:+ "").
      rewrite sapp_nil_r, replacer_linkNode. reflexivity.
Qed.

(** The page's string is the text that stands for the plugin's nodes. *)
Lemma replaceAllLinks_visitor (idx : gmap string string) (content : string) :
  replaceAllLinks (replacer idx) content
  = match visitor idx content true with
    | Some nodes => join (map markdownOf nodes)
    | None => content
    end.
Proof.
  destruct (hasLinkToken content) eqn:Hhas.
  - unfold visitor, replaceAllLinks, matchAll.
    unfold hasLinkToken in Hhas. destruct (test content 0) as [found li].
    simpl in Hhas. subst found. cbn [negb].
    rewrite whileExec_foldl.
    destruct (replace_loop idx content 0 _ (matchesFrom_Scan content 0)
                {| lastIndex := 0; newNodes := [] |}
                {| nextSourcePosition := 0; accumulatedResult := "" |}
                eq_refl eq_refl)
      as (nodes & Hn & Ha & Hp).
    rewrite Ha, Hp, Hn. cbn [newNodes accumulatedResult app].
    set (st := foldl _ _ _).
    destruct (decide (lastIndex st < String.length content)) as [Hlt|Hge].
    + rewrite map_app, join_app. simpl. rewrite sapp_nil_r. reflexivity.
    + unfold sliceFrom. rewrite sdrop_all by lia. rewrite sapp_nil_r. reflexivity.
  - assert (Hv : visitor idx content true = None) by (apply visitor_None; auto).
    rewrite Hv. unfold replaceAllLinks.
    assert (Hm : matchAll content = []).
    { destruct (matchAll content) eqn:E; [reflexivity|].
      assert (hasLinkToken content = true) by (apply hasLinkToken_true; congruence).
      congruence. }
    rewrite Hm. reflexivity.
Qed.

End PageFacts.

(** ** The link rewriter *)

Module LinkRewriter.
Import Js LinkRegex Markdown Page Notions Samples.
Import JsFacts RegexFacts RewriterFacts TreeFacts PageFacts.

(** C1 as stated fails: with each match rendered as its display text
    alone, the replacement of ["See [[Tokyo Adventure]] guide"] reads
    ["See Tokyo Adventure guide"]: the brackets of the token are gone,
    so the original string is not reproduced. *)
Lemma display_text_drops_brackets :
  ∃ nodes,
    visitor tokyoIndex "See [[Tokyo Adventure]] guide" true = Some nodes
    ∧ join (map textContent nodes) = "See Tokyo Adventure guide"
    ∧ join (map textContent nodes) ≠ "See [[Tokyo Adventure]] guide".
Proof.
  eexists. split; [vm_compute; reflexivity|].
  split; [vm_compute; reflexivity|]. vm_compute. discriminate.
Qed.

(** C1, amended: a text node that has a parent and holds at least one
    occurrence is taken out of its parent's children and replaced, in
    place, by the sequence [nodes]: non-empty literal segments that
    hold no occurrence, and exactly one node per match, in the order of
    the matches (the leftmost occurrences, none overlapping another).
    Reading each literal segment as its text and each
    replacement node as its display text between [[[] and []]]
    reproduces the original string exactly.  The nodes spliced in hold
    no further occurrence. *)
Theorem text_node_replaced (files : list NoteData) (text : string)
    (d : option NodeData) (ty : string) (pre post : list Node) :
  hasLinkToken text = true →
  ∃ nodes,
    visitor (getTitleToSlugMap files) text true = Some nodes
    ∧ remarkInternalLinks files (Parent ty (pre ++ Text text d :: post))
      = Parent ty (flat_map (visitChild (getTitleToSlugMap files)) pre
                   ++ nodes
                   ++ flat_map (visitChild (getTitleToSlugMap files)) post)
    ∧ join (map sourceText nodes) = text
    ∧ Forall (Piece (getTitleToSlugMap files)) nodes
    ∧ filter (fun n => isLiteral n = false) nodes
      = map (fun m => linkNode (getTitleToSlugMap files) (linkText m)) (matchAll text)
    ∧ matchAll text ≠ [] ∧ Scan text 0 (matchAll text)
    ∧ Forall (fun n => visitChild (getTitleToSlugMap files) n = [n]) nodes.
Proof.
  intros Hhas.
  destruct (visitor_Some (getTitleToSlugMap files) text Hhas)
    as (nodes & Hv & Hj & Hp & Hf).
  exists nodes. split; [exact Hv|]. split.
  { cbn [remarkInternalLinks]. f_equal.
    rewrite flat_map_app. cbn [flat_map visitChild]. rewrite Hv. reflexivity. }
  split; [exact Hj|]. split; [exact Hp|]. split; [exact Hf|].
  split; [apply hasLinkToken_true; exact Hhas|].
  split; [apply matchesFrom_Scan|].
  eapply Forall_impl; [exact Hp|].
  intros n Hn. apply visitChild_fixed, (Piece_noLinkToken _ _ Hn).
Qed.

Lemma text_node_replaced_tokyo :
  ∃ nodes,
    visitor (getTitleToSlugMap tokyoFiles) "See [[Tokyo Adventure]] guide" true = Some nodes
    ∧ join (map sourceText nodes) = "See [[Tokyo Adventure]] guide".
Proof.
  destruct (text_node_replaced tokyoFiles "See [[Tokyo Adventure]] guide" None
              "paragraph" [] []) as (nodes & Hv & _ & Hj & _).
  - vm_compute. reflexivity.
  - exists nodes. split; [exact Hv|exact Hj].
Defined.

(** C2 as stated fails: the inner text is lower-cased but not trimmed,
    so [[[ Tokyo Adventure ]]] is looked up with its spaces and misses
    the key that [[[tokyo adventure]]] finds. *)
Lemma padded_token_unresolved :
  resolveSlug tokyoIndex " Tokyo Adventure " = None
  ∧ resolveSlug tokyoIndex "tokyo adventure" = Some "tokyo-adventure"
  ∧ visitor tokyoIndex "[[ Tokyo Adventure ]]" true
    = Some [Text " Tokyo Adventure " (Some brokenLinkData)]
  ∧ visitor tokyoIndex "[[tokyo adventure]]" true
    = Some [Link "/tokyo-adventure" [Text "tokyo adventure" None]].
Proof. repeat split; vm_compute; reflexivity. Qed.

(** C2, amended: resolution normalizes the matched inner text by
    lower-casing only, without trimming; hence for every alias index
    two tokens whose inner texts differ only in letter case, such as
    [[[Tokyo Adventure]]] and [[[tokyo adventure]]], resolve to the same
    outcome: the same slug and link target, or both unresolved. *)
Theorem resolution_ignores_case (idx : gmap string string) (t1 t2 : string) :
  toLowerCase t1 = toLowerCase t2 →
  resolveSlug idx t1 = resolveSlug idx t2
  ∧ resolveSlug idx t1 = resolveSlug idx (toLowerCase t1)
  ∧ (∀ url, linkNode idx t1 = Link url [Text t1 None]
            ↔ linkNode idx t2 = Link url [Text t2 None])
  ∧ (linkNode idx t1 = Text t1 (Some brokenLinkData)
     ↔ linkNode idx t2 = Text t2 (Some brokenLinkData)).
Proof.
  intros Hlow.
  assert (Hres : resolveSlug idx t1 = resolveSlug idx t2)
    by (unfold resolveSlug; rewrite Hlow; reflexivity).
  split; [exact Hres|]. split.
  { unfold resolveSlug. rewrite toLowerCase_idemp. reflexivity. }
  unfold linkNode. rewrite Hres.
  destruct (resolveSlug idx t2) as [slug|]; [destruct (truthy slug)|];
    split; try intros url; split; intros H; try discriminate;
    try reflexivity; injection H as <-; reflexivity.
Qed.

Lemma resolution_ignores_case_tokyo :
  resolveSlug tokyoIndex "Tokyo Adventure" = resolveSlug tokyoIndex "tokyo adventure".
Proof.
  refine (proj1 (resolution_ignores_case tokyoIndex "Tokyo Adventure" "tokyo adventure" _)).
  vm_compute. reflexivity.
Defined.

(** C5: against the index that maps ["tokyo adventure"] and
    ["tokyo-adventure"] to ["tokyo-adventure"], the text node
    ["See [[Tokyo Adventure]] guide"] is replaced by the literal
    ["See "], a link to [/tokyo-adventure] showing ["Tokyo Adventure"],
    and the literal [" guide"]; that index is the one built from the
    note [tokyo-adventure.md] titled "Tokyo Adventure". *)
Theorem tokyo_link_resolved :
  visitor tokyoIndex "See [[Tokyo Adventure]] guide" true
  = Some [Text "See " None;
          Link "/tokyo-adventure" [Text "Tokyo Adventure" None];
          Text " guide" None]
  ∧ getTitleToSlugMap tokyoFiles = tokyoIndex
  ∧ remarkInternalLinks tokyoFiles
      (Parent "root" [Parent "paragraph" [Text "See [[Tokyo Adventure]] guide" None]])
    = Parent "root" [Parent "paragraph"
        [Text "See " None;
         Link "/tokyo-adventure" [Text "Tokyo Adventure" None];
         Text " guide" None]].
Proof.
  assert (Hidx : getTitleToSlugMap tokyoFiles = tokyoIndex).
  { apply map_eq. intros k.
    destruct (decide (k = "__proto__")) as [->|Hk];
      [rewrite IndexFacts.getTitleToSlugMap_proto; reflexivity|].
    rewrite IndexFacts.getTitleToSlugMap_lookup by exact Hk. unfold tokyoIndex.
    rewrite !lookup_insert, lookup_empty.
    unfold lastWithAlias, tokyoFiles.
    rewrite filter_cons, filter_nil.
    repeat case_decide; subst; try reflexivity; exfalso;
      match goal with
      | H : ¬ _ ∈ aliases _ |- _ => apply H; apply (bool_decide_unpack _); vm_compute; exact I
      | H : _ ∈ aliases _ |- _ =>
          vm_compute in H; repeat (apply elem_of_cons in H as [H|H]; [congruence|]);
          inversion H
      end. }
  split; [vm_compute; reflexivity|]. split; [exact Hidx|].
  cbn [remarkInternalLinks flat_map visitChild]. rewrite Hidx.
  vm_compute. reflexivity.
Qed.

(** C6 fails on the code for a token that reads [constructor]: no
    document of [tokyoFiles] has that alias and the index holds no such
    key, yet the lookup finds the function that every plain object
    inherits under [constructor], the test [if (slug)] succeeds, and
    the token of ["See [[Constructor]] guide"] becomes a link, to the
    text of that function, where a marked text node was to be made. *)
Theorem constructor_token_becomes_link :
  Forall (fun f => "constructor" ∉ aliases f) tokyoFiles
  ∧ getTitleToSlugMap tokyoFiles !! "constructor" = None
  ∧ resolveSlug (getTitleToSlugMap tokyoFiles) "Constructor"
    = Some "function Object() { [native code] }"
  ∧ visitor (getTitleToSlugMap tokyoFiles) "See [[Constructor]] guide" true
    = Some [Text "See " None;
            Link "/function Object() { [native code] }" [Text "Constructor" None];
            Text " guide" None].
Proof.
  split; [repeat constructor; apply (bool_decide_unpack _); vm_compute; exact I|].
  repeat split; vm_compute; reflexivity.
Qed.

(** C8: a text node whose value holds no occurrence of the pattern (no
    part [[[g]]] with [g] non-empty and free of [']']) is left as it
    is: the visitor returns at once, the node keeps its
    place among its siblings, and a tree none of whose text nodes holds
    an occurrence comes back unchanged.  A value without any []]], such
    as one with an unterminated [[[], holds no occurrence. *)
Theorem node_without_token_untouched (files : list NoteData) (text : string)
    (d : option NodeData) :
  hasLinkToken text = false →
  (¬ ∃ a g b, text = a +:+ "[[" +:+ g +:+ "]]" +:+ b ∧ g ≠ "" ∧ noRBracket g = true)
  ∧ (∀ hasParent, visitor (getTitleToSlugMap files) text hasParent = None)
  ∧ (∀ ty pre post,
       remarkInternalLinks files (Parent ty (pre ++ Text text d :: post))
       = Parent ty (flat_map (visitChild (getTitleToSlugMap files)) pre
                    ++ Text text d
                    :: flat_map (visitChild (getTitleToSlugMap files)) post))
  ∧ (∀ tree, noLinkToken tree = true → remarkInternalLinks files tree = tree)
  ∧ (∀ text', hasDoubleClose text' = false → hasLinkToken text' = false).
Proof.
  intros Hno.
  assert (Hv : ∀ hp, visitor (getTitleToSlugMap files) text hp = None)
    by (intros hp; apply visitor_None; auto).
  split.
  { intros Hex. apply hasLinkToken_spec in Hex. congruence. }
  split; [exact Hv|]. split; [|split].
  - intros ty pre post. cbn [remarkInternalLinks]. f_equal.
    rewrite flat_map_app. cbn [flat_map visitChild]. rewrite Hv. reflexivity.
  - intros tree Htree.
    assert (Hfix : ∀ children, forallb noLinkToken children = true →
              flat_map (visitChild (getTitleToSlugMap files)) children = children).
    { intros children Hc. apply flat_map_fixed.
      rewrite forallb_forall in Hc. apply Forall_forall. intros c Hin.
      apply visitChild_fixed, Hc, list_elem_of_In, Hin. }
    destruct tree as [v dv|url children|ty children|ty v];
      cbn [remarkInternalLinks noLinkToken] in *.
    + destruct (visitor _ v false); reflexivity.
    + rewrite (Hfix _ Htree). reflexivity.
    + rewrite (Hfix _ Htree). reflexivity.
    + reflexivity.
  - exact no_close_no_token.
Qed.

Lemma node_without_token_untouched_unterminated :
  remarkInternalLinks tokyoFiles
    (Parent "paragraph" [Text "An unterminated [[ link" None; Literal "inlineCode" "x"])
  = Parent "paragraph" [Text "An unterminated [[ link" None; Literal "inlineCode" "x"].
Proof.
  destruct (node_without_token_untouched tokyoFiles "An unterminated [[ link" None)
    as (_ & _ & H & _).
  - vm_compute. reflexivity.
  - exact (H "paragraph" [] [Literal "inlineCode" "x"]).
Defined.

(** C10: the page's string rewrite and the plugin classify every token
    alike.  Both look the lower-cased inner text up in the index built
    by [getTitleToSlugMap]: on a hit with a non-empty slug the plugin
    makes a link to [/slug] and the page writes the markdown link
    [[text](/slug)]; otherwise the plugin marks the inner text with a
    [span] of class [text-red-500 font-mono] and the page writes that
    same [span] element.  For every content string the page's result
    is the text that stands for the plugin's nodes. *)
Theorem page_agrees_with_plugin (files : list NoteData) (content g : string) :
  match resolveSlug (getTitleToSlugMap files) g with
  | Some slug =>
      if truthy slug
      then linkNode (getTitleToSlugMap files) g = Link ("/" +:+ slug) [Text g None]
           ∧ replacer (getTitleToSlugMap files) g
             = "[" +:+ g +:+ "](/" +:+ slug +:+ ")"
      else linkNode (getTitleToSlugMap files) g = Text g (Some brokenLinkData)
           ∧ replacer (getTitleToSlugMap files) g
             = "<span class=" +:+ dquote +:+ "text-red-500 font-mono" +:+ dquote
               +:+ ">" +:+ g +:+ "</span>"
  | None =>
      linkNode (getTitleToSlugMap files) g = Text g (Some brokenLinkData)
      ∧ replacer (getTitleToSlugMap files) g
        = "<span class=" +:+ dquote +:+ "text-red-500 font-mono" +:+ dquote
          +:+ ">" +:+ g +:+ "</span>"
  end
  ∧ replacer (getTitleToSlugMap files) g
    = markdownOf (linkNode (getTitleToSlugMap files) g)
  ∧ processedContent files content
    = match visitor (getTitleToSlugMap files) content true with
      | Some nodes => join (map markdownOf nodes)
      | None => content
      end.
Proof.
  split; [|split].
  - unfold linkNode, replacer.
    destruct (resolveSlug (getTitleToSlugMap files) g) as [slug|];
      [destruct (truthy slug)|]; split; reflexivity.
  - apply replacer_linkNode.
  - apply replaceAllLinks_visitor.
Qed.

End LinkRewriter.

(** ** The reading history *)

Module History.
Import ReadingHistory Notions Samples.

Lemma slugs_filter (s : string) (history : list ReadingHistoryItem) :
  slug <$> filter (fun item => slug item ≠ s) history
  = filter (fun x => x ≠ s) (slug <$> history).
Proof.
  induction history as [|item history IH]; [reflexivity|].
  rewrite fmap_cons, !filter_cons.
  destruct (decide (slug item ≠ s)); rewrite ?fmap_cons, IH; reflexivity.
Qed.

(** C9 as stated fails for a stored list that already holds a slug
    twice: adding another note keeps both copies. *)
Lemma stored_duplicates_survive :
  ∃ newHistory,
    addToHistory 3 "b" "B" duplicatedHistory = Some newHistory
    ∧ ¬ NoDup (slug <$> newHistory).
Proof.
  eexists. split; [reflexivity|].
  simpl. intros H. apply NoDup_cons in H as [_ H].
  apply NoDup_cons in H as [H _]. apply H. left.
Qed.

Lemma addToHistory_NoDup (now : nat) (s t : string) (store : Storage) :
  NoDup (slug <$> getHistory store) →
  NoDup (slug <$> getHistory (addToHistory now s t store)).
Proof.
  intros Hnd. unfold addToHistory. cbn [getHistory].
  eapply sublist_NoDup; [|rewrite fmap_take; apply sublist_take].
  rewrite fmap_cons. cbn [slug]. apply NoDup_cons.
  rewrite slugs_filter. split.
  - intros Hin. apply list_elem_of_filter in Hin as [Hne _]. by apply Hne.
  - apply NoDup_filter, Hnd.
Qed.

(** C9, amended: after [addToHistory(slug, title)] from any stored
    list, the stored list is the new entry followed by the earlier
    entries with other slugs, cut to the first 5: it has at most 5
    entries, the new entry comes first, its slug occurs nowhere else,
    and what exceeds the bound is dropped from the end.  When the
    slugs of the stored list were pairwise distinct, so are those of
    the result; this is the case of every list stored by a sequence of
    [addToHistory] calls that starts from an empty store. *)
Theorem addToHistory_bounded (now : nat) (s t : string) (store : Storage) :
  (∃ newHistory,
    addToHistory now s t store = Some newHistory
    ∧ length newHistory ≤ 5
    ∧ head newHistory = Some {| slug := s; title := t; visitedAt := now |}
    ∧ (s ∉ (slug <$> tail newHistory))
    ∧ newHistory
      = take 5 ({| slug := s; title := t; visitedAt := now |}
                :: filter (fun item => slug item ≠ s) (getHistory store))
    ∧ (NoDup (slug <$> getHistory store) → NoDup (slug <$> newHistory)))
  ∧ ∀ calls, NoDup (slug <$> getHistory (replay calls None)).
Proof.
  split.
  - eexists. split; [reflexivity|].
    set (new := {| slug := s; title := t; visitedAt := now |}).
    set (rest := filter (fun item => slug item ≠ s) (getHistory store)).
    change (take MAX_HISTORY_SIZE (new :: rest)) with (new :: take 4 rest).
    split; [simpl; rewrite length_take; lia|]. split; [reflexivity|].
    split; [|split; [reflexivity|]].
    + cbn [tail]. intros Hin.
      apply list_elem_of_fmap in Hin as (item & Hs & Hitem).
      apply elem_of_take in Hitem as (i & Hi & _).
      apply list_elem_of_lookup_2, list_elem_of_filter in Hi as [Hne _].
      apply Hne. symmetry. exact Hs.
    + intros Hnd. apply (addToHistory_NoDup now s t store Hnd).
  - intros calls. unfold replay.
    induction calls as [|c calls IH] using rev_ind; [constructor|].
    rewrite foldl_app. cbn [foldl]. apply addToHistory_NoDup, IH.
Qed.

Lemma addToHistory_bounded_duplicated :
  ∃ newHistory,
    addToHistory 3 "b" "B" duplicatedHistory = Some newHistory
    ∧ length newHistory ≤ 5
    ∧ (slug <$> newHistory) = ["b"; "a"; "a"].
Proof.
  destruct (addToHistory_bounded 3 "b" "B" duplicatedHistory)
    as ((h & Hadd & Hlen & _ & _ & Heq & _) & _).
  exists h. split; [exact Hadd|]. split; [exact Hlen|].
  rewrite Heq. reflexivity.
Defined.

End History.

(** ** The scans of the content directory *)

Module SiteFacts.
Import Js LinkRegex Markdown Page Site Notions SiteNotions JsFacts ObjectFacts PathFacts.
#[local] Arguments String.append !s1 s2 / : simpl nomatch.

(** Induction on directory items, with the hypothesis for every item
    of a directory. *)
Lemma FsItem_items_ind (P : FsItem → Prop) :
  (∀ name data, P (FsFile name data)) →
  (∀ name items, Forall P items → P (FsDir name items)) →
  ∀ item, P item.
Proof.
  intros HF HD. fix IH 1. intros [name data|name items].
  - apply HF.
  - apply HD. induction items as [|it items IHi]; constructor; [apply IH|exact IHi].
Qed.

Lemma wellFormed_dir (name : string) (items : list FsItem) :
  wellFormed (FsDir name items) → wellFormedDir items.
Proof.
  intros (_ & _ & Hnd & Hall). split; [exact Hnd|].
  clear Hnd. induction items as [|it items IH]; constructor.
  - exact (proj1 Hall).
  - apply IH. exact (proj2 Hall).
Qed.

Lemma wellFormed_name (item : FsItem) :
  wellFormed item → itemName item ≠ "" ∧ hasSlash (itemName item) = false.
Proof. destruct item; intros (H1 & H2 & _); auto. Qed.

Lemma endsWith_app (a b suffix : string) :
  endsWith b suffix = true → endsWith (a +:+ b) suffix = true.
Proof.
  intros Hb. induction a as [|c a IH]; [exact Hb|].
  rewrite sapp_cons. cbn [endsWith].
  destruct (String.eqb _ _); [reflexivity|exact IH].
Qed.

Lemma endsWith_md_nonempty (s : string) : endsWith s ".md" = true → s ≠ "".
Proof. intros H ->. discriminate. Qed.

Lemma endsWith_itemRelativePath (rel name : string) :
  endsWith name ".md" = true → endsWith (itemRelativePath rel name) ".md" = true.
Proof.
  intros H. unfold itemRelativePath. destruct (truthy rel); [|exact H].
  rewrite <- sapp_assoc. apply endsWith_app, H.
Qed.

(** The two scans visit the same files in the same order. *)
Lemma slugScanItem_scanItem (item : FsItem) :
  ∀ rel m,
    slugScanItem rel item m
    = foldl (fun m f => JsObject.set m (slug f) (path f)) m (scanItem rel item).
Proof.
  induction item as [name data|name items IH] using FsItem_items_ind; intros rel m;
    cbn [slugScanItem scanItem].
  - destruct (endsWith name ".md"); reflexivity.
  - revert m. induction IH as [|it items Hit _ IHitems]; intros m; [reflexivity|].
    cbn [foldl flat_map]. rewrite foldl_app, Hit. apply IHitems.
Qed.

Lemma getSlugToFileMap_notes (root : list FsItem) :
  getSlugToFileMap root
  = foldl (fun m f => JsObject.set m (slug f) (path f)) ∅ (getAllMarkdownFiles root).
Proof.
  unfold getSlugToFileMap, getAllMarkdownFiles. generalize (∅ : gmap string string).
  induction root as [|it root IH]; intros m; [reflexivity|].
  cbn [foldl flat_map]. rewrite foldl_app, slugScanItem_scanItem. apply IH.
Qed.

(** The slug map never owns the key [__proto__]. *)
Lemma slug_fold_proto (notes : list NoteData) :
  foldl (fun m f => JsObject.set m (slug f) (path f)) (∅ : gmap string string) notes
    !! "__proto__" = None.
Proof.
  induction notes as [|f notes IH] using rev_ind; [reflexivity|].
  rewrite foldl_app. cbn [foldl]. rewrite lookup_set by exact IH.
  rewrite decide_False by (intros [H1 H2]; congruence). exact IH.
Qed.

Lemma lookup_slug_fold (notes : list NoteData) (s : string) :
  s ≠ "__proto__" →
  foldl (fun m f => JsObject.set m (slug f) (path f)) (∅ : gmap string string) notes !! s
  = path <$> lastWithSlug s notes.
Proof.
  intros Hs. unfold lastWithSlug.
  induction notes as [|f notes IH] using rev_ind; [reflexivity|].
  rewrite foldl_app, filter_app, filter_cons, filter_nil. cbn [foldl].
  rewrite lookup_set by apply slug_fold_proto.
  destruct (decide (slug f = s)) as [<-|Hne].
  - rewrite decide_True by auto. rewrite last_snoc. reflexivity.
  - rewrite decide_False by (intros [H1 H2]; congruence).
    rewrite app_nil_r. exact IH.
Qed.

Lemma lastWithSlug_Some (s : string) (notes : list NoteData) (f : NoteData) :
  lastWithSlug s notes = Some f → f ∈ notes ∧ slug f = s.
Proof.
  unfold lastWithSlug. intros H. apply last_Some_elem_of in H.
  apply list_elem_of_filter in H. tauto.
Qed.

Lemma lastWithSlug_is_Some (notes : list NoteData) (f : NoteData) :
  f ∈ notes → is_Some (lastWithSlug (slug f) notes).
Proof.
  intros Hf. unfold lastWithSlug. rewrite last_is_Some. intros E.
  assert (Hin : f ∈ filter (fun g => slug g = slug f) notes)
    by (apply list_elem_of_filter; auto).
  rewrite E in Hin. inversion Hin.
Qed.

(** What every scanned note satisfies. *)
Lemma scanItem_invariant (item : FsItem) :
  ∀ rel f, f ∈ scanItem rel item →
    endsWith (path f) ".md" = true
    ∧ slug f = replace "/" "-" (replace ".md" "" (path f))
    ∧ category f ≠ "".
Proof.
  induction item as [name data|name items IH] using FsItem_items_ind; intros rel f;
    cbn [scanItem].
  - destruct (endsWith name ".md") eqn:He; [|intros H; inversion H].
    intros H. apply list_elem_of_singleton in H as ->. cbn.
    split; [apply endsWith_itemRelativePath, He|]. split; [reflexivity|].
    destruct (truthy rel) eqn:Ht; [|discriminate].
    apply truthy_true, Ht.
  - intros H. apply list_elem_of_In, in_flat_map in H as (it & Hit & Hf).
    rewrite Forall_forall in IH.
    apply list_elem_of_In in Hit, Hf. exact (IH it Hit _ f Hf).
Qed.

(** The segments of an item's relative path: those of its directory,
    then its name. *)
Lemma split_itemRelativePath (rel name : string) (segs : list string) :
  (rel = "" ∧ segs = []) ∨ (rel ≠ "" ∧ split "/" rel = segs) →
  name ≠ "" → hasSlash name = false →
  split "/" (itemRelativePath rel name) = segs ++ [name]
  ∧ itemRelativePath rel name ≠ "".
Proof.
  intros Hrel Hname Hslash. unfold itemRelativePath.
  destruct Hrel as [[-> ->]|[Hne <-]].
  - cbn. split; [apply split_no_slash, Hslash|exact Hname].
  - apply truthy_true in Hne as Ht. rewrite Ht. split.
    + change (rel +:+ "/" +:+ name) with (rel +:+ String "/" name).
      rewrite split_app_sep, (split_no_slash _ Hslash). reflexivity.
    + destruct rel; [by destruct Hne|discriminate].
Qed.

Lemma findItem_NoDup (items : list FsItem) (it : FsItem) :
  NoDup (map itemName items) → it ∈ items →
  findItem (itemName it) items = Some it.
Proof.
  unfold findItem. induction items as [|x items IH]; intros Hnd Hin; [inversion Hin|].
  cbn [map] in Hnd. apply NoDup_cons in Hnd as [Hx Hnd]. cbn [find].
  apply elem_of_cons in Hin as [->|Hin].
  - rewrite bool_decide_eq_true_2 by reflexivity. reflexivity.
  - rewrite bool_decide_eq_false_2; [apply IH; assumption|].
    intros E. apply Hx. rewrite E.
    apply (list_elem_of_fmap_2 itemName). exact Hin.
Qed.

(** Reading back what the scan lists: every note found below a
    directory is opened again by the path recorded for it, and its
    title is the front-matter title of that file, or the slug. *)
Lemma scanItem_openFile (root : list FsItem) (item : FsItem) :
  ∀ rel segs items,
    (rel = "" ∧ segs = []) ∨ (rel ≠ "" ∧ split "/" rel = segs) →
    (∀ rest, rest ≠ [] → openFile (segs ++ rest) root = openFile rest items) →
    NoDup (map itemName items) → item ∈ items → wellFormed item →
    ∀ f, f ∈ scanItem rel item →
      ∃ data, openFile (split "/" (path f)) root = Some data
              ∧ title f = orElse (fmTitle data) (slug f).
Proof.
  induction item as [name data|name sub IH] using FsItem_items_ind;
    intros rel segs items Hrel Hdir Hnd Hin Hwf f; cbn [scanItem].
  - destruct (endsWith name ".md"); [|intros H; inversion H].
    intros H. apply list_elem_of_singleton in H as ->.
    destruct (wellFormed_name _ Hwf) as [Hname Hslash]. cbn [itemName] in *.
    destruct (split_itemRelativePath rel name segs Hrel Hname Hslash) as [Hsplit _].
    exists data. cbn [path title slug scanEntry]. split; [|reflexivity].
    rewrite Hsplit, Hdir by discriminate. cbn [openFile].
    pose proof (findItem_NoDup items (FsFile name data) Hnd Hin) as Hfind.
    cbn [itemName] in Hfind. rewrite Hfind. reflexivity.
  - intros H. apply list_elem_of_In, in_flat_map in H as (it & Hit & Hf).
    apply list_elem_of_In in Hit, Hf.
    destruct (wellFormed_name _ Hwf) as [Hname Hslash]. cbn [itemName] in *.
    destruct (split_itemRelativePath rel name segs Hrel Hname Hslash) as [Hsplit Hne].
    destruct (wellFormed_dir _ _ Hwf) as [Hnd' Hall].
    rewrite Forall_forall in IH, Hall.
    apply (IH it Hit (itemRelativePath rel name) (segs ++ [name]) sub); auto.
    intros rest Hrest. rewrite <- app_assoc, Hdir by discriminate.
    cbn [app openFile].
    pose proof (findItem_NoDup items (FsDir name sub) Hnd Hin) as Hfind.
    cbn [itemName] in Hfind. rewrite Hfind.
    destruct rest; [by destruct Hrest|reflexivity].
Qed.

Lemma getAllMarkdownFiles_read (root : list FsItem) (f : NoteData) :
  wellFormedDir root → f ∈ getAllMarkdownFiles root →
  ∃ data, readMarkdownFile root (path f) = Some data
          ∧ title f = orElse (fmTitle data) (slug f).
Proof.
  intros [Hnd Hall] Hf. unfold getAllMarkdownFiles in Hf.
  apply list_elem_of_In, in_flat_map in Hf as (it & Hit & Hf).
  apply list_elem_of_In in Hit, Hf. rewrite Forall_forall in Hall.
  apply (scanItem_openFile root it "" [] root); auto.
Qed.

Lemma getAllMarkdownFiles_invariant (root : list FsItem) (f : NoteData) :
  f ∈ getAllMarkdownFiles root →
  endsWith (path f) ".md" = true
  ∧ slug f = replace "/" "-" (replace ".md" "" (path f))
  ∧ category f ≠ "".
Proof.
  intros Hf. unfold getAllMarkdownFiles in Hf.
  apply list_elem_of_In, in_flat_map in Hf as (it & Hit & Hf).
  apply list_elem_of_In in Hf. exact (scanItem_invariant it _ f Hf).
Qed.

(** [NotePage] for the slug of a listed note. *)
Lemma notePage_listed (root : list FsItem) (s : string) (g : NoteData) :
  s ≠ "__proto__" → lastWithSlug s (getAllMarkdownFiles root) = Some g →
  notePage root s
  = match readMarkdownFile root (path g) with
    | None => ReadFailure
    | Some data =>
        Rendered (orElse (fmTitle data) s)
                 (processedContent (getAllMarkdownFiles root) (content data))
    end.
Proof.
  intros Hs Hg. unfold notePage.
  assert (Hown : getSlugToFileMap root !! s = Some (path g))
    by (rewrite getSlugToFileMap_notes, lookup_slug_fold, Hg by exact Hs; reflexivity).
  rewrite (get_own _ _ _ Hown).
  destruct (lastWithSlug_Some _ _ _ Hg) as [Hgin _].
  destruct (getAllMarkdownFiles_invariant root g Hgin) as (He & _ & _).
  assert (Ht : truthy (path g) = true)
    by (apply truthy_true, endsWith_md_nonempty, He).
  rewrite Ht. reflexivity.
Qed.

(** [NotePage] for a slug that the slug map does not own. *)
Lemma notePage_unlisted (root : list FsItem) (s : string) :
  s = "__proto__" ∨ lastWithSlug s (getAllMarkdownFiles root) = None →
  notePage root s
  = if decide (s ∈ JsObject.inheritedKeys) then PathFailure else NoteNotFound.
Proof.
  intros Hs. unfold notePage.
  assert (Hown : getSlugToFileMap root !! s = None).
  { rewrite getSlugToFileMap_notes. destruct (decide (s = "__proto__")) as [->|Hne].
    - apply slug_fold_proto.
    - destruct Hs as [?|Hnone]; [contradiction|].
      rewrite lookup_slug_fold, Hnone by exact Hne. reflexivity. }
  rewrite (get_missing _ _ Hown).
  destruct (decide (s ∈ JsObject.inheritedKeys)) as [Hin|Hnin].
  - apply (inherited_is_Some (A := string)) in Hin as [v Hv]. rewrite Hv.
    unfold JsObject.inherited in Hv.
    destruct (decide (s = "__proto__")); [injection Hv as <-; reflexivity|].
    destruct (JsObject.assoc s JsObject.prototypeMethods);
      [injection Hv as <-; reflexivity|discriminate].
  - apply (inherited_None (A := string)) in Hnin. rewrite Hnin. reflexivity.
Qed.

Lemma notePage_of_last (root : list FsItem) (s : string) (g : NoteData) :
  wellFormedDir root → s ≠ "__proto__" →
  lastWithSlug s (getAllMarkdownFiles root) = Some g →
  ∃ data, readMarkdownFile root (path g) = Some data
          ∧ notePage root s
            = Rendered (title g)
                       (processedContent (getAllMarkdownFiles root) (content data)).
Proof.
  intros Hwf Hs Hg. destruct (lastWithSlug_Some _ _ _ Hg) as [Hgin Hgs].
  destruct (getAllMarkdownFiles_read root g Hwf Hgin) as (data & Hread & Htitle).
  exists data. split; [exact Hread|].
  rewrite (notePage_listed root s g Hs Hg), Hread, Htitle, Hgs. reflexivity.
Qed.

Lemma lastWithSlug_None (s : string) (notes : list NoteData) :
  lastWithSlug s notes = None ↔ ∀ f, f ∈ notes → slug f ≠ s.
Proof.
  split.
  - intros Hnone f Hf Hs. destruct (lastWithSlug_is_Some _ _ Hf) as [g Hg].
    rewrite Hs in Hg. congruence.
  - intros Hall. destruct (lastWithSlug s notes) as [g|] eqn:Hg; [|reflexivity].
    destruct (lastWithSlug_Some _ _ _ Hg) as [Hin Hs]. destruct (Hall g Hin Hs).
Qed.

End SiteFacts.

(** ** Further properties of the site's scans and pages *)

Module SiteProperties.
Import Js LinkRegex Markdown Page Site Notions SiteNotions.
Import JsFacts ObjectFacts IndexFacts RewriterFacts SiteFacts.

(** X1: [getSlugToFileMap] and [getAllMarkdownFiles] scan alike: a slug
    other than [__proto__] is a key of the slug map exactly when some
    listed note has it, and it maps to the path of the last listed note
    with that slug.  The slug [__proto__] is never a key: the
    assignment made for a note [__proto__.md] is lost. *)
Theorem slug_map_of_listed_notes (root : list FsItem) (s : string) :
  getSlugToFileMap root !! s
  = (if decide (s = "__proto__") then None
     else path <$> lastWithSlug s (getAllMarkdownFiles root))
  ∧ (is_Some (getSlugToFileMap root !! s)
     ↔ s ≠ "__proto__" ∧ ∃ f, f ∈ getAllMarkdownFiles root ∧ slug f = s).
Proof.
  rewrite getSlugToFileMap_notes.
  destruct (decide (s = "__proto__")) as [->|Hne].
  - rewrite slug_fold_proto. split; [reflexivity|].
    split; [intros [? H]; discriminate|intros [H _]; destruct (H eq_refl)].
  - rewrite lookup_slug_fold by exact Hne. split; [reflexivity|].
    rewrite fmap_is_Some. split.
    + intros [f Hf]. apply lastWithSlug_Some in Hf. split; [exact Hne|eauto].
    + intros (_ & f & Hf & <-). apply lastWithSlug_is_Some, Hf.
Qed.

(** X2: every note that [getAllMarkdownFiles] lists comes from a file
    whose name ends in [.md]: its path ends in [.md] (so is not empty),
    its slug is that path without its first [.md] and with its first
    ['/'] turned into ['-'], and its category is never empty. *)
Theorem listed_notes_are_markdown_files (root : list FsItem) (f : NoteData) :
  f ∈ getAllMarkdownFiles root →
  endsWith (path f) ".md" = true ∧ path f ≠ ""
  ∧ slug f = replace "/" "-" (replace ".md" "" (path f))
  ∧ category f ≠ "".
Proof.
  intros Hf. destruct (getAllMarkdownFiles_invariant root f Hf) as (He & Hs & Hc).
  split; [exact He|]. split; [apply endsWith_md_nonempty, He|]. auto.
Qed.

Lemma listed_notes_are_markdown_files_sample :
  ∃ f, f ∈ getAllMarkdownFiles sampleRoot
       ∧ path f = "destinations/tokyo-adventure.md"
       ∧ slug f = "destinations-tokyo-adventure"
       ∧ endsWith (path f) ".md" = true.
Proof.
  set (f := scanEntry "destinations" "destinations/tokyo-adventure.md"
              (Some "Tokyo Adventure") None (Some ["japan"]) None).
  assert (Hf : f ∈ getAllMarkdownFiles sampleRoot) by (right; left).
  destruct (listed_notes_are_markdown_files sampleRoot f Hf) as (He & _ & _ & _).
  exists f. split; [exact Hf|]. split; [reflexivity|]. split; [reflexivity|exact He].
Defined.

(** X3: in a directory tree with names as a listing gives them, the
    page of every listed note whose slug is not [__proto__] is
    rendered: [NotePage] finds the slug, reads the file back by the
    recorded path, and shows the title and the rewritten content of the
    last listed note with that slug. *)
Theorem listed_note_page_is_rendered (root : list FsItem) (f : NoteData) :
  wellFormedDir root → f ∈ getAllMarkdownFiles root → slug f ≠ "__proto__" →
  ∃ g data,
    lastWithSlug (slug f) (getAllMarkdownFiles root) = Some g
    ∧ readMarkdownFile root (path g) = Some data
    ∧ notePage root (slug f)
      = Rendered (title g)
                 (processedContent (getAllMarkdownFiles root) (content data)).
Proof.
  intros Hwf Hf Hne.
  destruct (lastWithSlug_is_Some _ _ Hf) as [g Hg].
  destruct (notePage_of_last root (slug f) g Hwf Hne Hg) as (data & Hread & Hpage).
  exists g, data. auto.
Qed.

Lemma listed_note_page_is_rendered_sample :
  ∃ html, notePage sampleRoot "destinations-tokyo-adventure"
          = Rendered "Tokyo Adventure" html.
Proof.
  destruct (listed_note_page_is_rendered sampleRoot
              (scanEntry "destinations" "destinations/tokyo-adventure.md"
                 (Some "Tokyo Adventure") None (Some ["japan"]) None))
    as (g & data & Hg & _ & Hpage).
  - split.
    + apply (bool_decide_unpack _). vm_compute. exact I.
    + repeat constructor; try discriminate;
        apply (bool_decide_unpack _); vm_compute; exact I.
  - right. left.
  - discriminate.
  - assert (E : g = scanEntry "destinations" "destinations/tokyo-adventure.md"
                     (Some "Tokyo Adventure") None (Some ["japan"]) None)
      by (vm_compute in Hg; injection Hg as <-; reflexivity).
    rewrite E in Hpage. eexists. exact Hpage.
Defined.

(** X4: [NotePage] answers "Note not found" exactly for the slugs that
    no listed note has and that [Object.prototype] has no property
    for.  For the name of such a property ([constructor], [toString],
    ...) that no listed note has as its slug, and for [__proto__]
    whatever the notes, the lookup yields a function or an object and
    [readMarkdownFile] throws on it. *)
Theorem note_not_found_iff (root : list FsItem) (s : string) :
  (notePage root s = NoteNotFound
   ↔ (s ∉ JsObject.inheritedKeys)
     ∧ (∀ f, f ∈ getAllMarkdownFiles root → slug f ≠ s))
  ∧ (notePage root s = PathFailure
     ↔ (s ∈ JsObject.inheritedKeys)
       ∧ (s = "__proto__" ∨ ∀ f, f ∈ getAllMarkdownFiles root → slug f ≠ s)).
Proof.
  destruct (decide (s = "__proto__")) as [->|Hne].
  { rewrite notePage_unlisted by (left; reflexivity).
    rewrite decide_True by left. split.
    - split; [discriminate|]. intros [H _]. destruct H. left.
    - split; [intros _; split; [left|left; reflexivity]|reflexivity]. }
  destruct (lastWithSlug s (getAllMarkdownFiles root)) as [g|] eqn:Hg.
  - destruct (lastWithSlug_Some _ _ _ Hg) as [Hgin Hgs].
    rewrite (notePage_listed root s g Hne Hg). split; split.
    + destruct (readMarkdownFile root (path g)); discriminate.
    + intros [_ H]. destruct (H g Hgin Hgs).
    + destruct (readMarkdownFile root (path g)); discriminate.
    + intros [_ [?|H]]; [contradiction|]. destruct (H g Hgin Hgs).
  - rewrite notePage_unlisted by (right; exact Hg).
    pose proof (proj1 (lastWithSlug_None _ _) Hg) as Hall.
    destruct (decide (s ∈ JsObject.inheritedKeys)) as [Hin|Hnin]; split; split;
      try discriminate; try tauto; auto.
Qed.

(** The values that the alias index owns are slugs of documents. *)
Lemma index_value_is_slug (files : list NoteData) (k s : string) :
  getTitleToSlugMap files !! k = Some s →
  ∃ d, d ∈ files ∧ slug d = s ∧ k ∈ aliases d.
Proof.
  intros Hk.
  assert (Hne : k ≠ "__proto__")
    by (intros ->; rewrite getTitleToSlugMap_proto in Hk; discriminate).
  rewrite getTitleToSlugMap_lookup in Hk by exact Hne. unfold lastWithAlias in Hk.
  destruct (last _) as [d|] eqn:Hl; [|discriminate].
  injection Hk as <-. apply last_Some_elem_of, list_elem_of_filter in Hl as [Hk Hd].
  eauto.
Qed.

Lemma Piece_linkUrls (idx : gmap string string) (n : Node) (url : string) :
  Piece idx n → url ∈ linkUrls n →
  ∃ g s, resolveSlug idx g = Some s ∧ s ≠ "" ∧ url = "/" +:+ s.
Proof.
  intros [v _ _|g _ _]; [intros H; inversion H|].
  destruct (linkNode_cases idx g) as [(s & Hr & Ht & ->)|[_ ->]];
    [|intros H; inversion H].
  cbn [linkUrls flat_map app]. intros H.
  apply elem_of_cons in H as [->|H]; [|inversion H].
  exists g, s. split; [exact Hr|]. split; [apply truthy_true, Ht|reflexivity].
Qed.

(** X5: where the links of the plugin lead.  A link that the plugin
    puts in place of a text node has the target [/slug] for the
    non-empty slug of a listed note; unless that slug is [__proto__],
    it is a key of the slug map and [NotePage], given the slug, finds
    the note (it neither answers "Note not found" nor fails on the
    path).  The only other targets are the texts of the two values
    inherited under a lower-case key: that of the function [Object],
    for a token reading [constructor] when no note has that alias, and
    that of [Object.prototype], for a token reading [__proto__]. *)
Theorem resolved_links_have_pages (root : list FsItem) (text : string)
    (nodes : list Node) (url : string) :
  visitor (getTitleToSlugMap (getAllMarkdownFiles root)) text true = Some nodes →
  url ∈ flat_map linkUrls nodes →
  (∃ s f, url = "/" +:+ s ∧ s ≠ ""
          ∧ f ∈ getAllMarkdownFiles root ∧ slug f = s
          ∧ (s ≠ "__proto__" →
             is_Some (getSlugToFileMap root !! s)
             ∧ notePage root s ≠ NoteNotFound ∧ notePage root s ≠ PathFailure))
  ∨ (url = "/function Object() { [native code] }"
     ∧ ∀ f, f ∈ getAllMarkdownFiles root → "constructor" ∉ aliases f)
  ∨ url = "/[object Object]".
Proof.
  intros Hv Hurl.
  assert (Hhas : hasLinkToken text = true).
  { destruct (hasLinkToken text) eqn:E; [reflexivity|].
    assert (visitor (getTitleToSlugMap (getAllMarkdownFiles root)) text true = None)
      by (apply visitor_None; auto).
    congruence. }
  destruct (visitor_Some (getTitleToSlugMap (getAllMarkdownFiles root)) text Hhas)
    as (nodes' & Hv' & _ & Hp & _).
  assert (nodes' = nodes) by congruence. subst nodes'.
  apply list_elem_of_In, in_flat_map in Hurl as (n & Hn & Hu).
  apply list_elem_of_In in Hn, Hu. rewrite Forall_forall in Hp.
  destruct (Piece_linkUrls _ n url (Hp n Hn) Hu) as (g & s & Hr & Hs & ->).
  destruct (resolveSlug_Some _ _ _ Hr) as [Hown|[(Hnone & Hg & ->)|(_ & _ & ->)]].
  - left. destruct (index_value_is_slug _ _ _ Hown) as (f & Hf & Hfs & _).
    exists s, f. split; [reflexivity|]. split; [exact Hs|].
    split; [exact Hf|]. split; [exact Hfs|]. intros Hne.
    destruct (lastWithSlug_is_Some _ _ Hf) as [last Hlast].
    rewrite Hfs in Hlast. split.
    + rewrite getSlugToFileMap_notes, lookup_slug_fold, Hlast by exact Hne.
      eexists. reflexivity.
    + rewrite (notePage_listed root s last Hne Hlast).
      destruct (readMarkdownFile root (path last)); split; discriminate.
  - right. left. split; [reflexivity|]. intros f Hf Hal.
    rewrite Hg in Hnone.
    rewrite getTitleToSlugMap_lookup in Hnone by discriminate.
    unfold lastWithAlias in Hnone.
    destruct (last _) as [d|] eqn:Hl; [discriminate|].
    apply last_None in Hl.
    assert (Hin : f ∈ filter (fun f => "constructor" ∈ aliases f)
                      (getAllMarkdownFiles root))
      by (apply list_elem_of_filter; auto).
    rewrite Hl in Hin. inversion Hin.
  - right. right. reflexivity.
Qed.

Lemma resolved_links_have_pages_sample :
  ∃ s, "/guide" = "/" +:+ s ∧ notePage sampleRoot s ≠ NoteNotFound.
Proof.
  destruct (resolved_links_have_pages sampleRoot "Back to the [[guide]]."
              [Text "Back to the " None; Link "/guide" [Text "guide" None];
               Text "." None] "/guide")
    as [(s & f & Hu & _ & _ & Hfs & Hp)|[[Hu _]|Hu]].
  - vm_compute. reflexivity.
  - apply (bool_decide_unpack _). vm_compute. exact I.
  - exists s. split; [exact Hu|]. apply Hp.
    intros ->. vm_compute in Hu. discriminate Hu.
  - discriminate Hu.
  - discriminate Hu.
Defined.

(** One step of the grouping. *)
Lemma groupNote_None (acc : gmap string (list NoteData)) (n : NoteData) :
  groupNote acc n = None
  ↔ acc !! category n = None ∧ category n ∈ JsObject.inheritedKeys.
Proof.
  unfold groupNote.
  destruct (JsObject.get acc (category n)) as [v|] eqn:Hget; cbn beta iota.
  - rewrite Hget. destruct v as [l| |].
    + apply get_Own in Hget. rewrite Hget.
      split; [discriminate|intros [? _]; discriminate].
    + split; [intros _|reflexivity]. apply (get_inherited _ _ _ Hget). discriminate.
    + split; [intros _|reflexivity]. apply (get_inherited _ _ _ Hget). discriminate.
  - rewrite (get_own _ _ [] (lookup_insert_eq _ _ _)).
    apply get_None in Hget as [_ Hnin].
    split; [discriminate|]. intros [_ H]. contradiction.
Qed.

Lemma groupNote_Some (acc acc' : gmap string (list NoteData)) (n : NoteData)
    (c : string) :
  groupNote acc n = Some acc' →
  acc' !! c
  = if decide (c = category n) then Some (default [] (acc !! c) ++ [n]) else acc !! c.
Proof.
  unfold groupNote.
  destruct (JsObject.get acc (category n)) as [v|] eqn:Hget; cbn beta iota.
  - rewrite Hget. destruct v as [l| |]; [|discriminate|discriminate].
    apply get_Own in Hget. intros [= <-].
    destruct (decide (c = category n)) as [->|Hne].
    + rewrite lookup_insert_eq, Hget. reflexivity.
    + rewrite lookup_insert_ne by congruence. reflexivity.
  - rewrite (get_own _ _ [] (lookup_insert_eq _ _ _)). intros [= <-].
    apply get_None in Hget as [Ha _].
    destruct (decide (c = category n)) as [->|Hne].
    + rewrite lookup_insert_eq, Ha. reflexivity.
    + rewrite !lookup_insert_ne by congruence. reflexivity.
Qed.

Lemma categories_snoc (notes : list NoteData) (n : NoteData) :
  categories (notes ++ [n]) = categories notes ≫= fun a => groupNote a n.
Proof. unfold categories. rewrite foldl_app. reflexivity. Qed.

Lemma categories_elem (notes : list NoteData) :
  ∀ cats group c n,
    categories notes = Some cats → cats !! c = Some group → n ∈ group →
    n ∈ notes ∧ category n = c.
Proof.
  induction notes as [|x notes IH] using rev_ind; intros cats group c n.
  - intros [= <-]. rewrite lookup_empty. discriminate.
  - rewrite categories_snoc.
    destruct (categories notes) as [acc|] eqn:Hacc; [|discriminate].
    cbn [mbind option_bind]. intros Hg.
    rewrite (groupNote_Some _ _ _ c Hg).
    destruct (decide (c = category x)) as [->|Hne].
    + intros [= <-] Hn. apply elem_of_app in Hn as [Hn|Hn].
      * destruct (acc !! category x) as [l|] eqn:Hl; [|inversion Hn].
        destruct (IH acc l _ n eq_refl Hl Hn) as [Hin Hcat].
        split; [apply elem_of_app; left; exact Hin|exact Hcat].
      * apply list_elem_of_singleton in Hn as ->.
        split; [apply elem_of_app; right; left|reflexivity].
    + intros Hl Hn. destruct (IH acc group c n eq_refl Hl Hn) as [Hin Hcat].
      split; [apply elem_of_app; left; exact Hin|exact Hcat].
Qed.

(** X6: the home page groups the notes by category without losing or
    reordering any, unless a category bears the name of a property of
    [Object.prototype].  When no note has such a category, the group
    of a category is the list of the notes of that category, in listing
    order, and a category without notes has no group; when some note
    has one (a top-level folder called [constructor], say), the read
    finds the inherited value, no array is created and [push] throws. *)
Theorem categories_group_by_category (notes : list NoteData) :
  (categories notes = None
   ↔ ∃ n, n ∈ notes ∧ category n ∈ JsObject.inheritedKeys)
  ∧ ∀ cats, categories notes = Some cats →
      ∀ c, cats !! c
           = match filter (fun n => category n = c) notes with
             | [] => None
             | group => Some group
             end.
Proof.
  induction notes as [|x notes [IH1 IH2]] using rev_ind.
  - split; [split; [discriminate|intros (n & Hn & _); inversion Hn]|].
    intros cats [= <-] c. apply lookup_empty.
  - rewrite categories_snoc.
    destruct (categories notes) as [acc|] eqn:Hacc; cbn [mbind option_bind].
    + assert (Hplain : ∀ n, n ∈ notes → category n ∉ JsObject.inheritedKeys).
      { intros n Hn Hin.
        assert (Hex : ∃ n, n ∈ notes ∧ category n ∈ JsObject.inheritedKeys) by eauto.
        apply IH1 in Hex. discriminate. }
      split.
      * rewrite groupNote_None. split.
        -- intros [_ Hin]. exists x. split; [apply elem_of_app; right; left|exact Hin].
        -- intros (n & Hn & Hin).
           apply elem_of_app in Hn as [Hn|Hn]; [destruct (Hplain n Hn Hin)|].
           apply list_elem_of_singleton in Hn as ->. split; [|exact Hin].
           rewrite (IH2 acc eq_refl).
           destruct (filter _ notes) as [|y l] eqn:Hf; [reflexivity|].
           assert (Hy : y ∈ filter (fun n => category n = category x) notes)
             by (rewrite Hf; left).
           apply list_elem_of_filter in Hy as [Hc Hy].
           destruct (Hplain y Hy). rewrite Hc. exact Hin.
      * intros cats Hg c.
        rewrite (groupNote_Some _ _ _ c Hg), (IH2 acc eq_refl c).
        rewrite filter_app, filter_cons, filter_nil.
        destruct (decide (c = category x)) as [->|Hne].
        -- rewrite decide_True by reflexivity.
           destruct (filter _ notes); reflexivity.
        -- rewrite decide_False by congruence. rewrite app_nil_r. reflexivity.
    + split; [|discriminate]. split; [|reflexivity]. intros _.
      destruct (proj1 IH1 eq_refl) as (n & Hn & Hin).
      exists n. split; [apply elem_of_app; left; exact Hn|exact Hin].
Qed.

(** X17: the notes shown on the home page have pages.  In a directory
    tree with names as a listing gives them, when the grouping
    succeeds, each note shown in the group of a category is a listed
    note of that category and, unless its slug is [__proto__],
    [NotePage] given that slug renders a note. *)
Theorem home_page_links_open (root : list FsItem) (c : string)
    (cats : gmap string (list NoteData)) (group : list NoteData) (n : NoteData) :
  wellFormedDir root →
  categories (getAllMarkdownFiles root) = Some cats →
  cats !! c = Some group → n ∈ group → slug n ≠ "__proto__" →
  n ∈ getAllMarkdownFiles root ∧ category n = c
  ∧ ∃ title html, notePage root (slug n) = Rendered title html.
Proof.
  intros Hwf Hcats Hc Hn Hne.
  destruct (categories_elem _ _ _ _ _ Hcats Hc Hn) as [Hin Hcat].
  split; [exact Hin|]. split; [exact Hcat|].
  destruct (lastWithSlug_is_Some _ _ Hin) as [g Hg].
  destruct (notePage_of_last root (slug n) g Hwf Hne Hg) as (data & _ & Hp). eauto.
Qed.

Lemma home_page_links_open_sample :
  ∃ title html, notePage sampleRoot "guide" = Rendered title html.
Proof.
  destruct (categories (getAllMarkdownFiles sampleRoot)) as [cats|] eqn:Hcats;
    [|vm_compute in Hcats; discriminate].
  destruct (home_page_links_open sampleRoot "general" cats
              [scanEntry "" "guide.md" (Some "Guide") None None None]
              (scanEntry "" "guide.md" (Some "Guide") None None None))
    as (_ & _ & H).
  - split.
    + apply (bool_decide_unpack _). vm_compute. exact I.
    + repeat constructor; try discriminate;
        apply (bool_decide_unpack _); vm_compute; exact I.
  - exact Hcats.
  - vm_compute in Hcats. injection Hcats as <-. vm_compute. reflexivity.
  - left.
  - discriminate.
  - exact H.
Defined.

End SiteProperties.

(** ** Further properties of the pattern and the rewriter *)

Module RewriterProperties.
Import Js LinkRegex Markdown Page Site Notions SiteNotions IndexNotions.
Import JsFacts RegexFacts IndexFacts RewriterFacts TreeFacts PageFacts.
#[local] Arguments String.append !s1 s2 / : simpl nomatch.

Lemma Scan_matches (text : string) (re : nat) (ms : list RegExpMatch) :
  Scan text re ms →
  Forall (fun m =>
            re ≤ index m
            ∧ slice text (index m) (index m + String.length (fullMatch m)) = fullMatch m
            ∧ fullMatch m = "[[" +:+ linkText m +:+ "]]"
            ∧ linkText m ≠ "" ∧ noRBracket (linkText m) = true
            ∧ index m + String.length (fullMatch m) ≤ String.length text) ms
  ∧ ∀ i a b, ms !! i = Some a → ms !! S i = Some b →
      index a + String.length (fullMatch a) ≤ index b.
Proof.
  induction 1 as [re _|re k m ms Hi Hf Hd Hk _ Hg Hrun Hle _ [IHall IHnext]].
  - split; [constructor|]. intros i a b H. inversion H.
  - split.
    + constructor.
      * split; [lia|]. split; [|auto].
        rewrite slice_drop, Hi, <- sdrop_sdrop, Hd.
        rewrite <- Hk at 1. rewrite sdrop_sapp_length.
        apply stake_sapp_length.
      * eapply Forall_impl; [exact IHall|]. cbn beta.
        intros m' (Hre & Hrest). split; [lia|exact Hrest].
    + intros [|i] a b Ha Hb.
      * injection Ha as <-. cbn in Hb.
        destruct ms as [|m' ms]; [discriminate|]. injection Hb as <-.
        apply Forall_cons in IHall as [(Hre & _) _]. exact Hre.
      * exact (IHnext i a b Ha Hb).
Qed.

(** X7: the matches that the global pattern reports in a text are
    real and disjoint: each is the part of the text at its index, of
    the form [[[g]]] with [g] non-empty and free of [']'], it lies
    within the text, and each match starts at or after the end of the
    one before. *)
Theorem matches_are_disjoint_parts (text : string) :
  Forall (fun m =>
            slice text (index m) (index m + String.length (fullMatch m)) = fullMatch m
            ∧ fullMatch m = "[[" +:+ linkText m +:+ "]]"
            ∧ linkText m ≠ "" ∧ noRBracket (linkText m) = true
            ∧ index m + String.length (fullMatch m) ≤ String.length text)
         (matchAll text)
  ∧ ∀ i a b, matchAll text !! i = Some a → matchAll text !! S i = Some b →
      index a + String.length (fullMatch a) ≤ index b.
Proof.
  destruct (Scan_matches text 0 _ (matchesFrom_Scan text 0)) as [Hall Hnext].
  split; [|exact Hnext].
  eapply Forall_impl; [exact Hall|]. cbn beta. tauto.
Qed.

Lemma visitChild_noLinkToken (idx : gmap string string) (n : Node) :
  Forall (fun c => noLinkToken c = true) (visitChild idx n).
Proof.
  induction n as [v d|url children IH|ty children IH|ty v] using Node_children_ind;
    cbn [visitChild].
  - destruct (hasLinkToken v) eqn:Hhas.
    + destruct (visitor_Some idx v Hhas) as (nodes & -> & _ & Hp & _).
      eapply Forall_impl; [exact Hp|]. intros n Hn. exact (Piece_noLinkToken _ _ Hn).
    + assert (Hv : visitor idx v true = None) by (apply visitor_None; auto).
      rewrite Hv. constructor; [|constructor]. cbn. rewrite Hhas. reflexivity.
  - constructor; [|constructor]. cbn [noLinkToken]. apply forallb_forall.
    intros c Hc. apply in_flat_map in Hc as (x & Hx & Hc).
    apply list_elem_of_In in Hx, Hc. rewrite Forall_forall in IH.
    specialize (IH x Hx). rewrite Forall_forall in IH. exact (IH c Hc).
  - constructor; [|constructor]. cbn [noLinkToken]. apply forallb_forall.
    intros c Hc. apply in_flat_map in Hc as (x & Hx & Hc).
    apply list_elem_of_In in Hx, Hc. rewrite Forall_forall in IH.
    specialize (IH x Hx). rewrite Forall_forall in IH. exact (IH c Hc).
  - constructor; [reflexivity|constructor].
Qed.

Lemma flat_map_visitChild_fixed (idx idx' : gmap string string) (children : list Node) :
  flat_map (visitChild idx') (flat_map (visitChild idx) children)
  = flat_map (visitChild idx) children.
Proof.
  apply flat_map_fixed, Forall_forall. intros c Hc.
  apply list_elem_of_In, in_flat_map in Hc as (x & _ & Hc).
  apply list_elem_of_In in Hc.
  pose proof (visitChild_noLinkToken idx x) as Hall. rewrite Forall_forall in Hall.
  apply visitChild_fixed, Hall, Hc.
Qed.

(** X8: rewriting is idempotent: a tree that the plugin has processed
    holds no link token any more, so processing it again, against the
    same or any other set of documents, changes nothing. *)
Theorem remarkInternalLinks_idempotent (files files' : list NoteData) (tree : Node) :
  remarkInternalLinks files' (remarkInternalLinks files tree)
  = remarkInternalLinks files tree.
Proof.
  destruct tree as [v d|url children|ty children|ty v]; cbn [remarkInternalLinks].
  - destruct (visitor _ v false); cbn [remarkInternalLinks];
      destruct (visitor _ v false); reflexivity.
  - rewrite flat_map_visitChild_fixed. reflexivity.
  - rewrite flat_map_visitChild_fixed. reflexivity.
  - reflexivity.
Qed.

Lemma display_length (idx : gmap string string) (nodes : list Node) :
  Forall (Piece idx) nodes →
  String.length (join (map textContent nodes))
  + 4 * length (filter (fun n => isLiteral n = false) nodes)
  = String.length (join (map sourceText nodes)).
Proof.
  induction 1 as [|n nodes Hn _ IH]; [reflexivity|].
  cbn [map]. change (join (?x :: ?l)) with (x +:+ join l).
  rewrite !length_sapp, filter_cons.
  destruct Hn as [v _ _|g _ _].
  - rewrite decide_False by (cbn; discriminate). cbn [sourceText isLiteral textContent].
    lia.
  - rewrite decide_True by apply isLiteral_linkNode.
    rewrite sourceText_linkNode, textContent_linkNode, !length_sapp. cbn [length].
    simpl String.length. lia.
Qed.

(** X9: in what replaces a text node only the brackets are lost: the
    text shown by the replacement nodes is exactly four characters
    shorter than the original for each token. *)
Theorem display_text_length (idx : gmap string string) (text : string)
    (nodes : list Node) :
  visitor idx text true = Some nodes →
  String.length (join (map textContent nodes)) + 4 * length (matchAll text)
  = String.length text.
Proof.
  intros Hv.
  assert (Hhas : hasLinkToken text = true).
  { destruct (hasLinkToken text) eqn:E; [reflexivity|].
    assert (visitor idx text true = None) by (apply visitor_None; auto).
    congruence. }
  destruct (visitor_Some idx text Hhas) as (nodes' & Hv' & Hj & Hp & Hf).
  assert (nodes' = nodes) by congruence. subst nodes'.
  rewrite <- Hj at 2. rewrite <- (display_length idx nodes Hp), Hf, length_map.
  reflexivity.
Qed.

Lemma display_text_length_tokyo :
  ∃ nodes, visitor Samples.tokyoIndex "See [[Tokyo Adventure]] guide" true = Some nodes
           ∧ String.length (join (map textContent nodes)) + 4 * 1 = 29.
Proof.
  eexists. split; [vm_compute; reflexivity|].
  refine (display_text_length Samples.tokyoIndex "See [[Tokyo Adventure]] guide" _ _).
  vm_compute. reflexivity.
Defined.

(** X10: content without any link token reaches the markdown
    converter as it is: the page's rewrite returns it unchanged. *)
Theorem page_without_token_unchanged (files : list NoteData) (content : string) :
  hasLinkToken content = false → processedContent files content = content.
Proof.
  intros Hno. unfold processedContent. rewrite replaceAllLinks_visitor.
  assert (Hv : visitor (getTitleToSlugMap files) content true = None)
    by (apply visitor_None; auto).
  rewrite Hv. reflexivity.
Qed.

Lemma page_without_token_unchanged_sample :
  processedContent Samples.tokyoFiles "Arrays like [[1, 2], [3, 4]] stay."
  = "Arrays like [[1, 2], [3, 4]] stay.".
Proof.
  apply (page_without_token_unchanged Samples.tokyoFiles). vm_compute. reflexivity.
Defined.

(** The visitor reads the index only through the lookups of
    lower-cased inner texts. *)
Lemma visitor_ext (idx idx' : gmap string string) (text : string) (hasParent : bool) :
  (∀ g, resolveSlug idx g = resolveSlug idx' g) →
  visitor idx text hasParent = visitor idx' text hasParent.
Proof.
  intros Hres. unfold visitor. rewrite !whileExec_foldl.
  assert (Hfold : ∀ ms st,
            foldl (fun st m => loopBody idx text m st) st ms
            = foldl (fun st m => loopBody idx' text m st) st ms).
  { induction ms as [|m ms IH]; intros st; [reflexivity|]. cbn [foldl].
    rewrite IH. f_equal. unfold loopBody, linkNode. rewrite Hres. reflexivity. }
  rewrite Hfold. reflexivity.
Qed.

(** X11: a key of the index that is not in lower case is never found:
    every lookup is made with a lower-cased text, so taking such keys
    out of the index changes neither a resolution nor what the visitor
    does.  (The id of a note is registered as it stands; an id with an
    upper-case letter is such a key.) *)
Theorem upper_case_keys_are_dead (idx : gmap string string) (text g : string)
    (hasParent : bool) :
  resolveSlug (filter (fun kv => toLowerCase kv.1 = kv.1) idx) g = resolveSlug idx g
  ∧ visitor (filter (fun kv => toLowerCase kv.1 = kv.1) idx) text hasParent
    = visitor idx text hasParent.
Proof.
  assert (Hres : ∀ g, resolveSlug (filter (fun kv => toLowerCase kv.1 = kv.1) idx) g
                      = resolveSlug idx g).
  { intros t. unfold resolveSlug, JsObject.get. rewrite map_lookup_filter.
    destruct (idx !! toLowerCase t) as [x|]; [|reflexivity]. cbn.
    rewrite option_guard_True by apply toLowerCase_idemp. reflexivity. }
  split; [apply Hres|]. apply visitor_ext, Hres.
Qed.

(** X12: a note can be linked by any of its aliases, in any letter
    case.  For ASCII text, and a token that does not read [__proto__]:
    when the lower-cased inner text of the token is an alias of a note
    with a non-empty id and of no note scanned after it, the token
    becomes a link to that note; when it is an alias of no note at all
    and is not [constructor], the token is marked as broken. *)
Theorem link_by_alias (pre post : list NoteData) (d : NoteData) (g : string) :
  isAscii g = true → forallb asciiNote (pre ++ d :: post) = true →
  toLowerCase g ≠ "__proto__" →
  (toLowerCase g ∈ aliases d →
   (∀ f, f ∈ post → toLowerCase g ∉ aliases f) → slug d ≠ "" →
   linkNode (getTitleToSlugMap (pre ++ d :: post)) g
   = Link ("/" +:+ slug d) [Text g None])
  ∧ ((∀ f, f ∈ pre ++ d :: post → toLowerCase g ∉ aliases f) →
     toLowerCase g ≠ "constructor" →
     linkNode (getTitleToSlugMap (pre ++ d :: post)) g
     = Text g (Some brokenLinkData)).
Proof.
  intros _ _ Hproto. split.
  - intros Hd Hpost Hslug. unfold linkNode.
    rewrite (resolveSlug_own _ g (slug d)).
    + apply truthy_true in Hslug. rewrite Hslug. reflexivity.
    + rewrite getTitleToSlugMap_lookup by exact Hproto.
      rewrite (lastWithAlias_app_r _ _ _ _ Hd Hpost). reflexivity.
  - intros Hnone Hcons. unfold linkNode.
    rewrite (resolveSlug_plain _ g Hcons Hproto).
    rewrite getTitleToSlugMap_lookup by exact Hproto.
    rewrite (lastWithAlias_None _ _ Hnone). reflexivity.
Qed.

Lemma link_by_alias_guide :
  linkNode (getTitleToSlugMap Samples.guideFiles) "FIELD Notes"
  = Link "/notes-guide" [Text "FIELD Notes" None].
Proof.
  refine (proj1 (link_by_alias [Samples.guideRoot] [] Samples.guideNested
                   "FIELD Notes" _ _ _) _ _ _).
  - reflexivity.
  - reflexivity.
  - discriminate.
  - apply (bool_decide_unpack _). vm_compute. exact I.
  - intros f Hf. inversion Hf.
  - discriminate.
Defined.

(** X22: a token that no note answers is marked, not linked.  For
    ASCII text: a token of the text whose lower-cased inner text is an
    alias of no document, and is neither [constructor] nor
    [__proto__], is replaced by a text node that carries the inner
    text unchanged and the broken-link marker (a [span] with class
    [text-red-500 font-mono]), never by a link; that node is among the
    nodes that replace the text node.  Whatever the token, the node
    made for it is either such a marked text or a link. *)
Theorem unresolved_token_marked (files : list NoteData) (text : string)
    (m : RegExpMatch) :
  m ∈ matchAll text →
  isAscii (linkText m) = true → forallb asciiNote files = true →
  (∀ f, f ∈ files → toLowerCase (linkText m) ∉ aliases f) →
  toLowerCase (linkText m) ≠ "constructor" → toLowerCase (linkText m) ≠ "__proto__" →
  linkNode (getTitleToSlugMap files) (linkText m)
  = Text (linkText m) (Some brokenLinkData)
  ∧ (∀ url children, linkNode (getTitleToSlugMap files) (linkText m) ≠ Link url children)
  ∧ (∃ nodes, visitor (getTitleToSlugMap files) text true = Some nodes
              ∧ Text (linkText m) (Some brokenLinkData) ∈ nodes)
  ∧ (∀ g, (∃ slug, linkNode (getTitleToSlugMap files) g = Link ("/" +:+ slug) [Text g None])
          ∨ linkNode (getTitleToSlugMap files) g = Text g (Some brokenLinkData)).
Proof.
  intros Hm _ _ Hnone Hcons Hproto.
  set (idx := getTitleToSlugMap files).
  assert (Hnode : linkNode idx (linkText m) = Text (linkText m) (Some brokenLinkData)).
  { unfold linkNode, idx. rewrite (resolveSlug_plain _ _ Hcons Hproto).
    rewrite getTitleToSlugMap_lookup by exact Hproto.
    rewrite (lastWithAlias_None _ _ Hnone). reflexivity. }
  split; [exact Hnode|]. split; [rewrite Hnode; discriminate|]. split.
  - assert (Hhas : hasLinkToken text = true).
    { apply hasLinkToken_true. intros E. rewrite E in Hm. inversion Hm. }
    destruct (visitor_Some idx text Hhas) as (nodes & Hv & _ & _ & Hf).
    exists nodes. split; [exact Hv|].
    assert (Hin : linkNode idx (linkText m)
                  ∈ map (fun m => linkNode idx (linkText m)) (matchAll text))
      by (apply (list_elem_of_fmap_2 (fun m => linkNode idx (linkText m))); exact Hm).
    rewrite <- Hf, Hnode in Hin. apply list_elem_of_filter in Hin as [_ Hin].
    exact Hin.
  - intros g. destruct (linkNode_cases idx g) as [(slug & _ & _ & ->)|[_ ->]]; eauto.
Qed.

Lemma unresolved_token_marked_nonexistent :
  ∃ nodes,
    visitor (getTitleToSlugMap Samples.tokyoFiles) "See [[Nonexistent Page]] guide" true
    = Some nodes
    ∧ Text "Nonexistent Page" (Some brokenLinkData) ∈ nodes.
Proof.
  destruct (unresolved_token_marked Samples.tokyoFiles "See [[Nonexistent Page]] guide"
              Samples.nonexistentMatch) as (_ & _ & H & _).
  - assert (E : matchAll "See [[Nonexistent Page]] guide" = [Samples.nonexistentMatch])
      by (vm_compute; reflexivity).
    rewrite E. left.
  - reflexivity.
  - reflexivity.
  - intros f Hf. apply (list_elem_of_singleton f) in Hf as ->.
    apply (bool_decide_unpack _). vm_compute. exact I.
  - discriminate.
  - discriminate.
  - exact H.
Defined.

(** X23: what a lookup can reach.  Against the index built from
    [files], a token resolves to the id of the last document that has
    its lower-cased inner text among its aliases, and to nothing when
    there is none, for every text but two: one that reads
    [constructor] resolves to such a document when there is one, and
    else to the text of the function [Object]; one that reads
    [__proto__] always resolves to the text of [Object.prototype],
    whatever the documents.  No other property of [Object.prototype]
    is reached, their names not being in lower case. *)
Theorem lookup_reaches_two_inherited_keys (files : list NoteData) (g : string) :
  (toLowerCase g ≠ "constructor" → toLowerCase g ≠ "__proto__" →
   resolveSlug (getTitleToSlugMap files) g
   = slug <$> lastWithAlias (toLowerCase g) files)
  ∧ (toLowerCase g = "constructor" →
     resolveSlug (getTitleToSlugMap files) g
     = Some (from_option slug "function Object() { [native code] }"
               (lastWithAlias "constructor" files)))
  ∧ (toLowerCase g = "__proto__" →
     resolveSlug (getTitleToSlugMap files) g = Some "[object Object]").
Proof.
  split; [|split].
  - intros Hc Hp. rewrite (resolveSlug_plain _ g Hc Hp).
    apply getTitleToSlugMap_lookup, Hp.
  - intros Hc. unfold resolveSlug, JsObject.get. rewrite Hc.
    rewrite getTitleToSlugMap_lookup by discriminate.
    destruct (lastWithAlias "constructor" files); reflexivity.
  - intros Hp. unfold resolveSlug, JsObject.get. rewrite Hp.
    rewrite getTitleToSlugMap_proto. reflexivity.
Qed.

End RewriterProperties.

(** ** Further properties of the reading history *)

Module HistoryProperties.
Import ReadingHistory Hook Notions.

Lemma filter_all {A : Type} (P : A → Prop) `{!∀ x, Decision (P x)} (l : list A) :
  Forall P l → filter P l = l.
Proof.
  induction 1 as [|x l Hx _ IH]; [reflexivity|].
  rewrite filter_cons, decide_True by exact Hx. rewrite IH. reflexivity.
Qed.

Lemma Forall_filter_self {A : Type} (P : A → Prop) `{!∀ x, Decision (P x)} (l : list A) :
  Forall P (filter P l).
Proof.
  apply Forall_forall. intros x Hx. apply list_elem_of_filter in Hx. tauto.
Qed.

(** The slugs after one call. *)
Lemma slugs_addToHistory (now : nat) (s t : string) (store : Storage) :
  slug <$> getHistory (addToHistory now s t store)
  = take 5 (s :: filter (fun x => x ≠ s) (slug <$> getHistory store)).
Proof.
  unfold addToHistory. cbn [getHistory]. rewrite fmap_take, fmap_cons.
  rewrite History.slugs_filter. reflexivity.
Qed.

(** X13: visiting the same note again only refreshes its entry:
    adding a slug twice in a row leaves the same stored list as adding
    it once with the later time and title. *)
Theorem revisit_refreshes (n1 n2 : nat) (s t1 t2 : string) (store : Storage) :
  addToHistory n2 s t2 (addToHistory n1 s t1 store) = addToHistory n2 s t2 store.
Proof.
  unfold addToHistory. cbn [getHistory]. f_equal.
  set (rest := filter (fun item => slug item ≠ s) (getHistory store)).
  unfold MAX_HISTORY_SIZE. cbn [take].
  rewrite filter_cons, decide_False by (cbn; intros H; by apply H).
  rewrite (filter_all _ (take 4 rest)).
  - cbn [take]. rewrite take_idemp. reflexivity.
  - apply Forall_take, Forall_filter_self.
Qed.

Lemma length_filter_ne (s : string) (l : list string) :
  NoDup l → s ∈ l → S (length (filter (fun x => x ≠ s) l)) = length l.
Proof.
  induction 1 as [|x l Hx Hnd IH]; intros Hs; [inversion Hs|].
  rewrite filter_cons. destruct (decide (x ≠ s)) as [Hne|He].
  - cbn [length]. f_equal. apply IH.
    apply elem_of_cons in Hs as [->|Hs]; [by destruct Hne|exact Hs].
  - assert (x = s) by (destruct (decide (x = s)); [assumption|by destruct He]).
    subst x. rewrite filter_all; [reflexivity|].
    apply Forall_forall. intros y Hy ->. exact (Hx Hy).
Qed.

(** X14: visiting a note that is already in a history of at most 5
    distinct slugs drops nobody: the note moves to the front, the
    others keep their order, and the list keeps its length. *)
Theorem revisit_keeps_everyone (now : nat) (s t : string) (store : Storage) :
  NoDup (slug <$> getHistory store) → length (getHistory store) ≤ 5 →
  s ∈ (slug <$> getHistory store) →
  (slug <$> getHistory (addToHistory now s t store))
  = s :: filter (fun x => x ≠ s) (slug <$> getHistory store)
  ∧ length (getHistory (addToHistory now s t store)) = length (getHistory store)
  ∧ ∀ x, x ∈ (slug <$> getHistory (addToHistory now s t store))
         ↔ x ∈ (slug <$> getHistory store).
Proof.
  intros Hnd Hlen Hs.
  pose proof (length_filter_ne s _ Hnd Hs) as Hf. rewrite length_fmap in Hf.
  assert (Heq : slug <$> getHistory (addToHistory now s t store)
                = s :: filter (fun x => x ≠ s) (slug <$> getHistory store)).
  { rewrite slugs_addToHistory. apply take_ge. cbn [length]. lia. }
  split; [exact Heq|]. split.
  - rewrite <- (length_fmap slug (getHistory (addToHistory now s t store))), Heq.
    cbn [length]. exact Hf.
  - intros x. rewrite Heq, elem_of_cons, list_elem_of_filter.
    split; [intros [->|[_ H]]; assumption|].
    intros Hx. destruct (decide (x = s)); [left; assumption|right; auto].
Qed.

Lemma revisit_keeps_everyone_sample :
  (slug <$> getHistory
     (addToHistory 9 "b" "B"
        (Some [ {| slug := "a"; title := "A"; visitedAt := 1 |};
                {| slug := "b"; title := "B"; visitedAt := 0 |} ])))
  = ["b"; "a"].
Proof.
  refine (proj1 (revisit_keeps_everyone 9 "b" "B"
            (Some [ {| slug := "a"; title := "A"; visitedAt := 1 |};
                    {| slug := "b"; title := "B"; visitedAt := 0 |} ]) _ _ _)).
  - apply (bool_decide_unpack _). vm_compute. exact I.
  - cbn. lia.
  - apply (bool_decide_unpack _). vm_compute. exact I.
Defined.

(** X15: visiting a note that is not in the history puts it in front
    of the first 4 stored entries, which stay as they are: from a
    full history exactly the last, oldest entry is dropped. *)
Theorem new_visit_evicts_oldest (now : nat) (s t : string) (store : Storage) :
  s ∉ (slug <$> getHistory store) →
  getHistory (addToHistory now s t store)
  = {| slug := s; title := t; visitedAt := now |} :: take 4 (getHistory store).
Proof.
  intros Hs. unfold addToHistory. cbn [getHistory].
  rewrite filter_all; [reflexivity|].
  apply Forall_forall. intros item Hitem E. apply Hs.
  rewrite <- E. apply (list_elem_of_fmap_2 slug). exact Hitem.
Qed.

Lemma new_visit_evicts_oldest_sample :
  (slug <$> getHistory (addToHistory 9 "g" "G" Samples.longHistory))
  = ["g"; "a"; "b"; "c"; "d"].
Proof.
  rewrite (new_visit_evicts_oldest 9 "g" "G" Samples.longHistory).
  - reflexivity.
  - apply (bool_decide_unpack _). vm_compute. exact I.
Defined.

Lemma remove_dups_snoc (l : list string) (s : string) :
  remove_dups (l ++ [s]) = filter (fun x => x ≠ s) (remove_dups l) ++ [s].
Proof.
  induction l as [|x l IH]; [reflexivity|].
  cbn [app remove_dups]. rewrite IH.
  destruct (decide_rel elem_of x (l ++ [s])) as [Hin'|Hnin'];
    destruct (decide_rel elem_of x l) as [Hin|Hnin]; try reflexivity.
  - apply elem_of_app in Hin' as [Hin'|Hin']; [contradiction|].
    apply list_elem_of_singleton in Hin' as ->.
    rewrite filter_cons, decide_False by (intros H; by apply H). reflexivity.
  - destruct Hnin'. apply elem_of_app. left. exact Hin.
  - rewrite filter_cons, decide_True; [reflexivity|].
    intros ->. apply Hnin', elem_of_app. right. left.
Qed.

Lemma take_filter_take (s : string) (l : list string) :
  NoDup l → ∀ n,
  take n (filter (fun x => x ≠ s) (take (S n) l)) = take n (filter (fun x => x ≠ s) l).
Proof.
  induction 1 as [|x l Hx Hnd IH]; intros n; [reflexivity|].
  cbn [take]. rewrite !filter_cons. destruct (decide (x ≠ s)) as [Hne|He].
  - destruct n as [|n]; [reflexivity|]. cbn [take]. f_equal. apply IH.
  - assert (x = s) by (destruct (decide (x = s)); [assumption|by destruct He]).
    subst x.
    assert (Hall : Forall (fun y => y ≠ s) l)
      by (apply Forall_forall; intros y Hy ->; exact (Hx Hy)).
    rewrite (filter_all _ l Hall), (filter_all _ (take n l)) by apply Forall_take, Hall.
    apply take_idemp.
Qed.

(** X16: starting from an empty store, the stored history is the list
    of the 5 most recently visited distinct notes, the latest visit
    first: the slugs of the calls without their earlier repetitions,
    in reverse order, cut to 5. *)
Theorem history_is_most_recent_distinct (calls : list (nat * string * string)) :
  (slug <$> getHistory (replay calls None))
  = take 5 (reverse (remove_dups (map (fun c => c.1.2) calls))).
Proof.
  unfold replay.
  induction calls as [|c calls IH] using rev_ind; [reflexivity|].
  rewrite foldl_app, map_app. cbn [foldl map].
  rewrite slugs_addToHistory, IH, remove_dups_snoc, reverse_app, reverse_singleton.
  cbn [app take]. f_equal.
  rewrite <- filter_reverse. apply take_filter_take.
  eapply NoDup_Permutation_proper; [apply reverse_Permutation|].
  apply NoDup_remove_dups.
Qed.

End HistoryProperties.

(** ** The hook over the store *)

Module HookProperties.
Import ReadingHistory Hook Notions.

Lemma hookStep_store_invariant (w : Storage * HookState) (e : HookEvent) :
  NoDup (slug <$> getHistory w.1) ∧ length (getHistory w.1) ≤ 5 →
  NoDup (slug <$> getHistory (hookStep w e).1)
  ∧ length (getHistory (hookStep w e).1) ≤ 5.
Proof.
  destruct w as [store st]. intros [Hnd Hlen].
  destruct e as [|now s t| |]; cbn [hookStep fst]; try (split; assumption).
  - split; [apply History.addToHistory_NoDup, Hnd|].
    unfold addToHistory. cbn [getHistory]. rewrite length_take.
    unfold MAX_HISTORY_SIZE. lia.
  - cbn. split; [constructor|lia].
Qed.

Lemma hookRun_store_invariant (store : Storage) (st : HookState)
    (events : list HookEvent) :
  NoDup (slug <$> getHistory store) ∧ length (getHistory store) ≤ 5 →
  NoDup (slug <$> getHistory (hookRun (store, st) events).1)
  ∧ length (getHistory (hookRun (store, st) events).1) ≤ 5.
Proof.
  intros H. unfold hookRun.
  induction events as [|e events IH] using rev_ind; [exact H|].
  rewrite foldl_app. cbn [foldl]. apply hookStep_store_invariant, IH.
Qed.

(** X18: what a [useReadingHistory] instance shows.  Over a store that
    holds at most 5 entries with distinct slugs, after its mount effect
    and any calls of its callbacks, in any order, the instance's
    [history] is exactly the stored list once any of them has run; it
    never has more than 5 entries nor two entries with one slug (the
    keys of the rows of the widget), and [isLoading] is false exactly
    when the mount effect has run. *)
Theorem hook_mirrors_store (store : Storage) (events : list HookEvent) :
  NoDup (slug <$> getHistory store) → length (getHistory store) ≤ 5 →
  (events ≠ [] →
   history (hookRun (store, initialState) events).2
   = getHistory (hookRun (store, initialState) events).1)
  ∧ length (history (hookRun (store, initialState) events).2) ≤ 5
  ∧ NoDup (slug <$> history (hookRun (store, initialState) events).2)
  ∧ (isLoading (hookRun (store, initialState) events).2 = false ↔ Mount ∈ events).
Proof.
  intros Hnd Hlen.
  induction events as [|e events IH] using rev_ind.
  - cbn. split; [congruence|]. split; [lia|]. split; [constructor|].
    split; [discriminate|intros H; inversion H].
  - pose proof (hookRun_store_invariant store initialState events (conj Hnd Hlen))
      as Hstore.
    pose proof (hookStep_store_invariant
                  (hookRun (store, initialState) events) e Hstore) as Hstep.
    unfold hookRun in *. rewrite foldl_app. cbn [foldl].
    destruct (foldl hookStep (store, initialState) events) as [store' st'].
    destruct IH as (_ & _ & _ & Hload). cbn [fst snd] in *.
    assert (Hmirror : history (hookStep (store', st') e).2
                      = getHistory (hookStep (store', st') e).1)
      by (destruct e; reflexivity).
    split; [intros _; exact Hmirror|]. rewrite Hmirror.
    split; [apply Hstep|]. split; [apply Hstep|].
    rewrite elem_of_app, list_elem_of_singleton.
    destruct e; cbn [hookStep snd isLoading]; rewrite ?Hload;
      split; auto; try (intros [H|H]; [exact H|discriminate]).
Qed.

Lemma hook_mirrors_store_sample :
  history (hookRun (None, initialState) [Mount; AddToHistory 9 "c" "C"]).2
  = getHistory (hookRun (None, initialState) [Mount; AddToHistory 9 "c" "C"]).1.
Proof.
  destruct (hook_mirrors_store None [Mount; AddToHistory 9 "c" "C"]) as (H & _).
  - constructor.
  - cbn. lia.
  - apply H. discriminate.
Defined.

End HookProperties.

(** ** Slugs and aliases of plain paths *)

Module PathProperties.
Import Js LinkRegex Markdown Site Notions SiteNotions IndexNotions.
Import JsFacts PathFacts IndexFacts SiteFacts.
#[local] Arguments String.append !s1 s2 / : simpl nomatch.

Lemma scanItem_file (rel name : string) (data : FileData) (f : NoteData) :
  endsWith name ".md" = true → f ∈ scanItem rel (FsFile name data) →
  slug f = replace "/" "-" (replace ".md" "" (itemRelativePath rel name)).
Proof.
  intros He. cbn [scanItem]. rewrite He. intros Hf.
  apply list_elem_of_singleton in Hf as ->. reflexivity.
Qed.

Lemma scanItem_single_dir (rel d : string) (item : FsItem) :
  scanItem rel (FsDir d [item]) = scanItem (itemRelativePath rel d) item.
Proof. cbn [scanItem flat_map]. apply app_nil_r. Qed.

(** X19: the slug of a note, by the depth of its file.  With plain
    names (no ['.'], no ['/']): [name.md] at the top has the slug
    [name]; [dir/name.md] has [dir-name]; and, since only the first
    ['/'] is replaced, [d1/d2/name.md] has the slug [d1-d2/name], which
    still holds a ['/']. *)
Theorem slug_by_depth (d1 d2 name : string) (data : FileData) :
  plainName d1 → plainName d2 → plainName name →
  d1 ≠ "" → d2 ≠ "" →
  (∀ f, f ∈ scanItem "" (FsFile (name +:+ ".md") data) → slug f = name)
  ∧ (∀ f, f ∈ scanItem "" (FsDir d1 [FsFile (name +:+ ".md") data]) →
          slug f = d1 +:+ "-" +:+ name)
  ∧ (∀ f, f ∈ scanItem "" (FsDir d1 [FsDir d2 [FsFile (name +:+ ".md") data]]) →
          slug f = d1 +:+ "-" +:+ d2 +:+ "/" +:+ name
          ∧ contains "/" (slug f) = true).
Proof.
  intros [Hd1 Hs1] [Hd2 Hs2] [Hn Hsn] Hne1 Hne2.
  assert (Hmd : endsWith (name +:+ ".md") ".md" = true)
    by (apply endsWith_app; reflexivity).
  assert (Hrel1 : itemRelativePath "" d1 = d1) by reflexivity.
  assert (Hrel : ∀ a b, a ≠ "" → itemRelativePath a b = a +:+ "/" +:+ b).
  { intros a b Ha. unfold itemRelativePath. apply truthy_true in Ha.
    rewrite Ha. reflexivity. }
  assert (Hne12 : d1 +:+ "/" +:+ d2 ≠ "")
    by (destruct d1; [by destruct Hne1|discriminate]).
  split; [|split]; intros f Hf.
  - rewrite (scanItem_file _ _ _ _ Hmd Hf).
    change (itemRelativePath "" (name +:+ ".md")) with (name +:+ ".md").
    rewrite (slug_of_md name Hn). apply replace_absent, Hsn.
  - rewrite scanItem_single_dir, Hrel1 in Hf.
    rewrite (scanItem_file _ _ _ _ Hmd Hf), (Hrel d1 _ Hne1).
    replace (d1 +:+ "/" +:+ name +:+ ".md") with ((d1 +:+ "/" +:+ name) +:+ ".md")
      by (rewrite !sapp_assoc; reflexivity).
    rewrite slug_of_md by (rewrite !contains_app, Hd1, Hn; reflexivity).
    apply (replace_after "/" "" "-" d1 name Hs1).
  - rewrite !scanItem_single_dir, Hrel1, (Hrel d1 d2 Hne1) in Hf.
    rewrite (scanItem_file _ _ _ _ Hmd Hf), (Hrel _ _ Hne12).
    replace ((d1 +:+ "/" +:+ d2) +:+ "/" +:+ name +:+ ".md")
      with ((d1 +:+ "/" +:+ d2 +:+ "/" +:+ name) +:+ ".md")
      by (rewrite !sapp_assoc; reflexivity).
    rewrite slug_of_md by (rewrite !contains_app, Hd1, Hd2, Hn; reflexivity).
    rewrite (replace_after "/" "" "-" d1 (d2 +:+ "/" +:+ name) Hs1).
    split; [reflexivity|]. rewrite !contains_app. cbn.
    rewrite !orb_true_r. reflexivity.
Qed.

Lemma slug_by_depth_sample :
  ∃ f, f ∈ scanItem "" (FsDir "dev" [FsDir "js" [FsFile ("async" +:+ ".md")
            {| fmTitle := None; fmDescription := None; fmTags := None;
               fmDate := None; content := "" |}]])
       ∧ slug f = "dev-js/async".
Proof.
  destruct (slug_by_depth "dev" "js" "async"
              {| fmTitle := None; fmDescription := None; fmTags := None;
                 fmDate := None; content := "" |}) as (_ & _ & H);
    try (split; reflexivity); try discriminate.
  eexists. split; [left|]. apply H. left.
Defined.

Lemma lowerChar_slash (c : ascii) : lowerChar c = "/"%char → c = "/"%char.
Proof. destruct c as [[] [] [] [] [] [] [] []]; vm_compute; congruence. Qed.

Lemma contains_slash_lower (s : string) :
  contains "/" s = true → contains "/" (toLowerCase s) = true.
Proof.
  induction s as [|c s IH]; cbn [contains toLowerCase]; [discriminate|].
  destruct (decide (c = "/"%char)) as [->|Hne]; [reflexivity|].
  intros H. rewrite (IH H). destruct (decide _); reflexivity.
Qed.

(** X20: linking a note in a folder.  For [dir/name.md] with plain
    ASCII names, the keys registered are the lower-cased title, the id
    [dir-name] as it stands, the lower-cased [dir/name] and the
    lower-cased bare file name [name].  So a token that reads [name]
    or [dir/name], in any letter case, becomes a link to [/dir-name],
    provided no note scanned later registers the same key and [name]
    does not read [__proto__]. *)
Theorem aliases_of_note_in_folder (d name : string) (data : FileData)
    (f : NoteData) (pre post : list NoteData) (g : string) :
  plainName d → plainName name → d ≠ "" → name ≠ "" →
  toLowerCase name ≠ "__proto__" →
  isAscii g = true → forallb asciiNote (pre ++ f :: post) = true →
  f ∈ scanItem "" (FsDir d [FsFile (name +:+ ".md") data]) →
  toLowerCase g = toLowerCase name
  ∨ toLowerCase g = toLowerCase (d +:+ "/" +:+ name) →
  (∀ f', f' ∈ post → toLowerCase g ∉ aliases f') →
  aliases f
  = [toLowerCase (title f); d +:+ "-" +:+ name;
     toLowerCase (d +:+ "/" +:+ name); toLowerCase name]
  ∧ linkNode (getTitleToSlugMap (pre ++ f :: post)) g
    = Link ("/" +:+ d +:+ "-" +:+ name) [Text g None].
Proof.
  intros [Hd Hs] [Hn Hsn] Hned Hnen Hproto _ _ Hf Hg Hpost.
  assert (Hmd : endsWith (name +:+ ".md") ".md" = true)
    by (apply endsWith_app; reflexivity).
  rewrite scanItem_single_dir in Hf. cbn [scanItem] in Hf. rewrite Hmd in Hf.
  apply list_elem_of_singleton in Hf.
  assert (Hpath : path f = d +:+ "/" +:+ name +:+ ".md").
  { rewrite Hf. cbn [path scanEntry]. unfold itemRelativePath at 1.
    change (itemRelativePath "" d) with d.
    apply truthy_true in Hned. rewrite Hned. reflexivity. }
  assert (Hslug : slug f = replace "/" "-" (replace ".md" "" (path f)))
    by (rewrite Hf; reflexivity).
  assert (Hstrip : replace ".md" "" (path f) = d +:+ "/" +:+ name).
  { rewrite Hpath.
    replace (d +:+ "/" +:+ name +:+ ".md") with ((d +:+ "/" +:+ name) +:+ ".md")
      by (rewrite !sapp_assoc; reflexivity).
    apply slug_of_md. rewrite !contains_app, Hd, Hn. reflexivity. }
  assert (Hpop : pop (split "/" (path f)) = Some (name +:+ ".md")).
  { rewrite Hpath. change (d +:+ "/" +:+ name +:+ ".md")
      with (d +:+ String "/" (name +:+ ".md")).
    rewrite split_app_sep, !split_no_slash; [reflexivity| |].
    - rewrite <- contains_slash, contains_app, Hsn. reflexivity.
    - rewrite <- contains_slash. exact Hs. }
  assert (Hal : aliases f
                = [toLowerCase (title f); d +:+ "-" +:+ name;
                   toLowerCase (d +:+ "/" +:+ name); toLowerCase name]).
  { unfold aliases. rewrite Hpop, Hslug, Hstrip. cbn [fmap option_fmap option_map].
    rewrite (slug_of_md name Hn).
    apply truthy_true in Hnen. rewrite Hnen.
    rewrite (replace_after "/" "" "-" d name Hs). reflexivity. }
  split; [exact Hal|].
  assert (Hfs : slug f = d +:+ "-" +:+ name).
  { rewrite Hslug, Hstrip. apply (replace_after "/" "" "-" d name Hs). }
  assert (Hin : toLowerCase g ∈ aliases f).
  { rewrite Hal. destruct Hg as [->| ->]; set_solver. }
  assert (Hgp : toLowerCase g ≠ "__proto__").
  { destruct Hg as [->| ->]; [exact Hproto|]. intros E.
    assert (Hc : contains "/" (toLowerCase (d +:+ "/" +:+ name)) = true).
    { apply contains_slash_lower. rewrite !contains_app. cbn.
      apply orb_true_r. }
    rewrite E in Hc. discriminate. }
  unfold linkNode. rewrite (resolveSlug_own _ g (slug f)).
  - rewrite Hfs. rewrite <- sapp_assoc.
    assert (Ht : truthy (d +:+ "-" +:+ name) = true).
    { apply truthy_true. destruct d; [by destruct Hned|discriminate]. }
    rewrite sapp_assoc, Ht. reflexivity.
  - rewrite getTitleToSlugMap_lookup by exact Hgp.
    rewrite (lastWithAlias_app_r _ _ _ _ Hin Hpost). reflexivity.
Qed.

Lemma aliases_of_note_in_folder_sample :
  linkNode (getTitleToSlugMap
              [scanEntry "destinations" "destinations/tokyo-adventure.md"
                 (Some "Tokyo Adventure") None None None])
           "Tokyo-Adventure"
  = Link "/destinations-tokyo-adventure" [Text "Tokyo-Adventure" None].
Proof.
  refine (proj2 (aliases_of_note_in_folder "destinations" "tokyo-adventure"
            {| fmTitle := Some "Tokyo Adventure"; fmDescription := None;
               fmTags := None; fmDate := None; content := "" |}
            _ [] [] "Tokyo-Adventure" _ _ _ _ _ _ _ _ _ _)).
  - split; reflexivity.
  - split; reflexivity.
  - discriminate.
  - discriminate.
  - discriminate.
  - reflexivity.
  - reflexivity.
  - left.
  - left. reflexivity.
  - intros f' Hf'. inversion Hf'.
Defined.

End PathProperties.
